(** * my_planner: a shallow embedding of src/main.rs

    Rust strings are sequences of Unicode scalar values; they are modelled
    as [list Z] of code points.  Library functions of [str] used by the
    program ([trim], [split_once], [replace], [split_terminator], [parse],
    [format!]) are written out below as the standard library specifies them.
    The file system is a single file, [option text] ([None] = absent). *)

From Stdlib Require Import Strings.String Strings.Ascii.
From Stdlib Require Import ZArith List Lia Bool.
From Stdlib Require Import Sorting.Permutation Sorting.Sorted.
Import ListNotations.
Open Scope Z_scope.

(** ** Text *)

Definition text := list Z.

(** ASCII literals as code points (used for concrete inputs). *)
Definition s (x : string) : text :=
  map (fun a => Z.of_nat (nat_of_ascii a)) (list_ascii_of_string x).

Definition NL : Z := 10.
Definition COLON : Z := 58.

(** [char::is_whitespace]: the Unicode White_Space property. *)
Definition is_whitespace (c : Z) : bool :=
  ((9 <=? c) && (c <=? 13)) || (c =? 32) || (c =? 133) || (c =? 160)
  || (c =? 5760) || ((8192 <=? c) && (c <=? 8202)) || (c =? 8232)
  || (c =? 8233) || (c =? 8239) || (c =? 8287) || (c =? 12288).

(** [str::trim_start] / [str::trim_end] / [str::trim]. *)
Fixpoint trim_start (t : text) : text :=
  match t with
  | [] => []
  | c :: t' => if is_whitespace c then trim_start t' else t
  end.

Definition trim_end (t : text) : text := rev (trim_start (rev t)).

Definition trim (t : text) : text := trim_end (trim_start t).

(** [str::split_once(sep)] for a [char] separator: split at the first
    occurrence. *)
Fixpoint split_once (sep : Z) (t : text) : option (text * text) :=
  match t with
  | [] => None
  | c :: t' =>
      if c =? sep then Some ([], t')
      else match split_once sep t' with
           | Some (a, b) => Some (c :: a, b)
           | None => None
           end
  end.

(** [str::replace(c, "")] for a [char] pattern. *)
Definition remove_char (c : Z) (t : text) : text :=
  filter (fun x => negb (x =? c)) t.

(** ** Integer parsing: [<iN as FromStr>::from_str] (radix 10)

    Empty input, a lone sign, or a non-digit fail; a leading [+] or [-]
    is accepted; a value outside [[lo, hi]] overflows and fails.  The
    accumulation is monotone, so checking the range of the final value is
    the same as the step-wise overflow checks of the library. *)

Definition is_digit (c : Z) : bool := (48 <=? c) && (c <=? 57).

Fixpoint digits_value (acc : Z) (t : text) : option Z :=
  match t with
  | [] => Some acc
  | c :: t' => if is_digit c then digits_value (acc * 10 + (c - 48)) t' else None
  end.

Definition parse_int (lo hi : Z) (t : text) : option Z :=
  let v :=
    match t with
    | [] => None
    | [c] => if (c =? 43) || (c =? 45) then None else digits_value 0 t
    | c :: t' =>
        if c =? 43 then digits_value 0 t'
        else if c =? 45 then option_map Z.opp (digits_value 0 t')
        else digits_value 0 t
    end in
  match v with
  | Some n => if (lo <=? n) && (n <=? hi) then Some n else None
  | None => None
  end.

Definition parse_i8 : text -> option Z := parse_int (-128) 127.
Definition parse_i32 : text -> option Z := parse_int (-2147483648) 2147483647.

(** ** Formatting: [Display] for integers and the [{:0>2}] fill *)

Fixpoint digits_rev (fuel : nat) (n : Z) : text :=
  match fuel with
  | O => []
  | S f => (48 + n mod 10) :: (if n <? 10 then [] else digits_rev f (n / 10))
  end.

Definition fmt_int (z : Z) : text :=
  (if z <? 0 then [45] else []) ++ rev (digits_rev (S (Z.to_nat (Z.abs z))) (Z.abs z)).

Definition pad_left (fill : Z) (width : nat) (t : text) : text :=
  repeat fill (width - length t) ++ t.

(** [format!("{}:{:0>2}", hours, mins)] *)
Definition format_time (hours mins : Z) : text :=
  fmt_int hours ++ [COLON] ++ pad_left 48 2 (fmt_int mins).

(** ** Entry *)

Record Entry := mkEntry { time : text; target : text }.

(** ** The time prompt of [Entry::try_from] (lines 160-195)

    One raw line as returned by [read_line].  A blank line raises
    [AppError::Exit]; an invalid time prints the error and re-prompts. *)

Inductive time_result := TExit | TInvalid | TOk (t : text).

(** [.chars().filter(|c| matches!(c, '0'..='9' | ':')).collect()] *)
Definition clean (raw : text) : text :=
  filter (fun c => (48 <=? c) && (c <=? 58)) raw.

Definition parse_time (raw : text) : time_result :=
  match trim raw with
  | [] => TExit
  | _ =>
    match split_once COLON (clean raw) with
    | Some (hs, ms) =>
        match parse_i8 hs, parse_i8 ms with
        | Some hours, Some mins =>
            if negb ((0 <=? hours) && (hours <=? 23))
               || negb ((0 <=? mins) && (mins <=? 59))
            then TInvalid
            else TOk (format_time hours mins)
        | _, _ => TInvalid
        end
    | None => TInvalid
    end
  end.

(** ** [Entry::try_from(&Stdin)] (lines 148-198)

    Standard input is the list of lines still to be read, each as
    [read_line] returns it (with its newline).  At end of input
    [read_line] reads nothing, so the line is [""], which is blank. *)

Definition input := list text.

Definition read_line (inp : input) : text * input :=
  match inp with
  | [] => ([], [])
  | l :: rest => (l, rest)
  end.

Inductive try_result := TryExit | TryEntry (e : Entry).

(** The [loop] of lines 160-195; at end of input the line read is [""],
    for which [parse_time] gives [TExit]. *)
Fixpoint time_loop (tgt : text) (inp : input) : try_result * input :=
  match inp with
  | [] => (TryExit, [])
  | l :: rest =>
      match parse_time l with
      | TExit => (TryExit, rest)
      | TInvalid => time_loop tgt rest
      | TOk t => (TryEntry (mkEntry t tgt), rest)
      end
  end.

Definition try_from (inp : input) : try_result * input :=
  let (line, inp1) := read_line inp in
  match trim line with
  | [] => (TryExit, inp1)
  | tgt => time_loop tgt inp1
  end.

(** ** Storage *)

Definition fstate := option text.

(** [str::split("\n\n")]: leftmost, non-overlapping matches. *)
Fixpoint split_go (cur : text) (t : text) : list text :=
  match t with
  | [] => [cur]
  | c :: rest =>
      match rest with
      | d :: rest' =>
          if (c =? NL) && (d =? NL) then cur :: split_go [] rest'
          else split_go (cur ++ [c]) rest
      | [] => split_go (cur ++ [c]) rest
      end
  end.

(** [split_terminator]: as [split], but a trailing empty piece is skipped. *)
Fixpoint drop_trailing_empty (ps : list text) : list text :=
  match ps with
  | [] => []
  | [p] => match p with [] => [] | _ => [p] end
  | p :: ps' => p :: drop_trailing_empty ps'
  end.

Definition split_terminator_nn (t : text) : list text :=
  drop_trailing_empty (split_go [] t).

(** [block.trim().split_once('\n').map(|(time, target)| Entry {..})] *)
Definition parse_block (b : text) : option Entry :=
  match split_once NL (trim b) with
  | Some (t, x) => Some (mkEntry t x)
  | None => None
  end.

Fixpoint parse_blocks (bs : list text) : list Entry :=
  match bs with
  | [] => []
  | b :: bs' =>
      match parse_block b with
      | Some e => e :: parse_blocks bs'
      | None => parse_blocks bs'
      end
  end.

(** [Storage::read] (lines 312-331): the new file state and the entries. *)
Definition read (fs : fstate) : fstate * list Entry :=
  match fs with
  | None => (Some [], [])
  | Some buf => (Some buf, parse_blocks (split_terminator_nn buf))
  end.

(** [format_args!("{}\n{}\n\n", entry.time(), entry.target())] *)
Definition serialize_entry (e : Entry) : text :=
  time e ++ [NL] ++ target e ++ [NL; NL].

Definition serialize (l : list Entry) : text := flat_map serialize_entry l.

(** [Ord for Box<dyn EntryTrait>] (lines 336-342): [None] is the panic
    of [parse().unwrap()]; the left operand is parsed first. *)
Definition key (e : Entry) : option Z := parse_i32 (remove_char COLON (time e)).

Definition entry_cmp (a b : Entry) : option comparison :=
  match key a with
  | None => None
  | Some x =>
      match key b with
      | None => None
      | Some y => Some (Z.compare x y)
      end
  end.

(** [list.sort()]: a stable sort through [is_less a b = (cmp a b == Less)].
    Modelled as insertion sort: every stable sort gives the same result
    for a total preorder, and with two or more elements every comparison
    sort compares every element at least once, so the panic happens
    exactly when some compared key fails to parse. *)
Fixpoint insert_sorted (x : Entry) (l : list Entry) : option (list Entry) :=
  match l with
  | [] => Some [x]
  | y :: l' =>
      match entry_cmp x y with
      | None => None
      | Some Lt => Some (x :: y :: l')
      | Some _ =>
          match insert_sorted x l' with
          | Some r => Some (y :: r)
          | None => None
          end
      end
  end.

Fixpoint sort_go (acc : list Entry) (l : list Entry) : option (list Entry) :=
  match l with
  | [] => Some acc
  | x :: l' =>
      match insert_sorted x acc with
      | Some acc' => sort_go acc' l'
      | None => None
      end
  end.

Definition sort (l : list Entry) : option (list Entry) := sort_go [] l.

Inductive outcome (A : Type) := Done (a : A) | Panic.
Arguments Done {A} a.
Arguments Panic {A}.

(** [Storage::save] (lines 293-309): read, push, sort, truncate and
    rewrite the whole file. *)
Definition save (fs : fstate) (e : Entry) : outcome fstate :=
  let (_, list) := read fs in
  match sort (list ++ [e]) with
  | None => Panic
  | Some sorted => Done (Some (serialize sorted))
  end.

(** ** [AddEntryModel::exec] (lines 93-103) and [App::run] (lines 27-44)

    The loop consumes at least one line per iteration or stops, so
    [S (length inp)] rounds always suffice. *)

Inductive exec_result := ExecOk | ExecPanic | ExecOutOfFuel.

Fixpoint add_loop (fuel : nat) (inp : input) (fs : fstate)
  : exec_result * fstate * input :=
  match fuel with
  | O => (ExecOutOfFuel, fs, inp)
  | S f =>
      match try_from inp with
      | (TryExit, rest) => (ExecOk, fs, rest)
      | (TryEntry e, rest) =>
          match save fs e with
          | Done fs' => add_loop f rest fs'
          | Panic => (ExecPanic, fs, rest)
          end
      end
  end.

Definition add_exec (inp : input) (fs : fstate) : exec_result * fstate * input :=
  add_loop (S (length inp)) inp fs.

(** [HelloModel], then [AddEntryModel], then [ViewListEntryModel], which
    lists what [Storage::read] returns. *)
Inductive run_result :=
  | RunOk (listing : list Entry) (fs : fstate)
  | RunPanic
  | RunOutOfFuel.

Definition app_run (inp : input) (fs : fstate) : run_result :=
  match add_exec inp fs with
  | (ExecOk, fs', _) => let (fs'', l) := read fs' in RunOk l fs''
  | (ExecPanic, _, _) => RunPanic
  | (ExecOutOfFuel, _, _) => RunOutOfFuel
  end.

(** ** Reference notions used in the statements *)

Definition digit (n : Z) : Z := 48 + n.

(** ["{hour}:{minute:02}"] for [0 <= hour <= 23], [0 <= minute <= 59]:
    the hour without leading zero, the minute on exactly two digits. *)
Definition canon_time (h m : Z) : text :=
  (if h <? 10 then [digit h] else [digit (h / 10); digit (h mod 10)])
  ++ [COLON; digit (m / 10); digit (m mod 10)].

Definition key_le (a b : Entry) : Prop :=
  exists x y, key a = Some x /\ key b = Some y /\ x <= y.

(** ** Notions used in the statements and proofs *)

Definition ent (t x : string) : Entry := mkEntry (s t) (s x).

Definition zrange (n : nat) : list Z := map Z.of_nat (seq 0 n).

Definition opt_eqb (a b : option Z) : bool :=
  match a, b with
  | Some x, Some y => x =? y
  | None, None => true
  | _, _ => false
  end.

Definition text_eqb (a b : text) : bool :=
  if list_eq_dec Z.eq_dec a b then true else false.

Definition time_ok (h m : Z) : bool :=
  text_eqb (format_time h m) (canon_time h m)
  && opt_eqb (key (mkEntry (canon_time h m) [])) (Some (100 * h + m))
  && negb (existsb (fun c => c =? NL) (canon_time h m))
  && text_eqb (trim_start (canon_time h m)) (canon_time h m).

Definition valid_time (t : text) : Prop :=
  exists h m, 0 <= h <= 23 /\ 0 <= m <= 59 /\ t = canon_time h m.

Definition has_text (t : text) : Prop := exists c, In c t /\ is_whitespace c = false.

(** The shape of one block of a file: one line (no newline), or two lines
    each holding some non-whitespace text; the entry [read] is expected to
    give for it. *)
Inductive block_shape : text -> option Entry -> Prop :=
  | block_one_line (b : text) :
      ~ In NL b -> block_shape b None
  | block_two_lines (l1 l2 : text) :
      ~ In NL l1 -> ~ In NL l2 -> has_text l1 -> has_text l2 ->
      block_shape (l1 ++ NL :: l2) (Some (mkEntry (trim_start l1) (trim_end l2))).

Definition file_of_blocks (bs : list text) : text :=
  flat_map (fun b => b ++ [NL; NL]) bs.

Definition option_list (r : option Entry) : list Entry :=
  match r with Some e => [e] | None => [] end.

(** Any file content as blocks joined by the blank-line separator
    ["\n\n"]. *)
Fixpoint join_blocks (bs : list text) : text :=
  match bs with
  | [] => []
  | [b] => b
  | b :: bs' => b ++ NL :: NL :: join_blocks bs'
  end.

(** No two consecutive newlines. *)
Fixpoint no_dnl (t : text) : bool :=
  match t with
  | c :: ((d :: _) as r) => negb ((c =? NL) && (d =? NL)) && no_dnl r
  | _ => true
  end.

Definition ends_nl (t : text) : bool :=
  match t with [] => false | _ => last t 0 =? NL end.

(** The blocks of a file split at each leftmost separator: no block holds a
    separator, and no block followed by a separator ends in a newline
    (that newline would have started an earlier separator). *)
Fixpoint separated (bs : list text) : Prop :=
  match bs with
  | [] => False
  | [b] => no_dnl b = true
  | b :: bs' => no_dnl b = true /\ ends_nl b = false /\ separated bs'
  end.

(** What one block contributes: the entry (first line, remainder) when the
    trimmed block has a newline, nothing otherwise. *)
Definition block_entries (b : text) : list Entry :=
  match split_once NL (trim b) with
  | Some (t, x) => [mkEntry t x]
  | None => []
  end.

Definition good (e : Entry) : Prop := key e <> None.

Definition has_key (k : option Z) (e : Entry) : bool := opt_eqb (key e) k.

(** An entry as the keyboard path builds it: a canonical in-range time and
    a non-empty one-line target whose last character is not whitespace. *)
Definition valid_entry (e : Entry) : Prop :=
  valid_time (time e) /\ target e <> [] /\ ~ In NL (target e)
  /\ is_whitespace (last (target e) 0) = false.

(** Saving each entry of a list in turn, as the add-loop does. *)
Fixpoint save_all (fs : fstate) (es : list Entry) : outcome fstate :=
  match es with
  | [] => Done fs
  | e :: es' =>
      match save fs e with
      | Done fs' => save_all fs' es'
      | Panic => Panic
      end
  end.

Definition block_of (e : Entry) : text := time e ++ NL :: target e.

(** A line as [read_line] returns it: no newline, except one at its end. *)
Definition console_line (l : text) : Prop :=
  exists b, ~ In NL b /\ (l = b \/ l = b ++ [NL]).

(** The console input of a session that enters each (task, time) pair in
    turn. *)
Definition session_input (pairs : list (text * text)) : input :=
  flat_map (fun p => [fst p; snd p]) pairs.

(** Re-parsing a canonical time gives it back. *)
(** The entries a session types in: each non-blank task line followed by
    an accepted time line gives the entry with that time and the trimmed
    task. *)
Definition typed_entry (p : text * text) (e : Entry) : Prop :=
  trim (fst p) <> [] /\ parse_time (snd p) = TOk (time e) /\ target e = trim (fst p).

(** A target as the keyboard path stores it: trimmed. *)
Definition trimmed (e : Entry) : Prop := trim (target e) = target e.

(** A storage file the program can have left: absent, or the serialization
    of sorted entries of the keyboard kind. *)
Definition program_file (fs : fstate) : Prop :=
  fs = None
  \/ exists l, Forall valid_entry l /\ Forall trimmed l /\ StronglySorted key_le l
               /\ fs = Some (serialize l).

Definition reparse_ok (h m : Z) : bool :=
  match parse_time (canon_time h m) with
  | TOk t => text_eqb t (canon_time h m)
  | _ => false
  end.

Example parse_time_9_5 : parse_time (s "9:5" ++ [NL]) = TOk (s "9:05").
Proof. reflexivity. Qed.
Example parse_time_09_00 : parse_time (s "09:00" ++ [NL]) = TOk (s "9:00").
Proof. reflexivity. Qed.
Example parse_time_25 : parse_time (s "25:00" ++ [NL]) = TInvalid.
Proof. reflexivity. Qed.
Example parse_time_blank_line : parse_time [32; 10] = TExit.
Proof. reflexivity. Qed.
Example parse_time_14_30 : parse_time (s "at 14h:30m") = TOk (s "14:30").
Proof. reflexivity. Qed.

Example scenario_B :
  match app_run [s "Meeting"; s "14:30"; s "Call mom"; s "09:00"; []] None with
  | RunOk l _ => l = [ent "9:00" "Call mom"; ent "14:30" "Meeting"]
  | _ => False
  end.
Proof. vm_compute. reflexivity. Qed.

Example read_malformed :
  snd (read (Some (s "junk" ++ [NL;NL] ++ s "9:00" ++ [NL] ++ s "A" ++ [NL;NL])))
  = [ent "9:00" "A"].
Proof. vm_compute. reflexivity. Qed.

Example save_panic :
  save (Some (s "abc" ++ [NL] ++ s "x" ++ [NL;NL])) (ent "9:00" "A") = Panic.
Proof. vm_compute. reflexivity. Qed.

Example save_trailing_space :
  snd (read (match save None (ent "9:00" "x ") with Done f => f | Panic => None end))
  = [ent "9:00" "x"].
Proof. vm_compute. reflexivity. Qed.

(** ** Text lemmas *)

Lemma in_trim_start (c : Z) (t : text) :
  In c t -> is_whitespace c = false -> In c (trim_start t).
Proof.
  induction t as [|d t IH]; simpl; [tauto|].
  intros [-> | Hin] Hws.
  - rewrite Hws. now left.
  - destruct (is_whitespace d); [auto | now right].
Qed.

Lemma in_trim (c : Z) (t : text) :
  In c t -> is_whitespace c = false -> In c (trim t).
Proof.
  intros Hin Hws. unfold trim, trim_end.
  apply (proj1 (in_rev _ _)), in_trim_start; [|exact Hws].
  apply (proj1 (in_rev _ _)), in_trim_start; assumption.
Qed.

Lemma split_once_in (c : Z) (t a b : text) :
  split_once c t = Some (a, b) -> In c t.
Proof.
  revert a. induction t as [|d t IH]; simpl; intros a H; [discriminate|].
  destruct (Z.eqb_spec d c) as [->|_]; [now left|].
  destruct (split_once c t) as [[a' b']|] eqn:E; [|discriminate].
  injection H as _ <-. right. eapply IH; reflexivity.
Qed.

(** ** The valid times, checked one by one *)

Lemma in_zrange (x : Z) (n : nat) : 0 <= x < Z.of_nat n -> In x (zrange n).
Proof.
  intros H. unfold zrange. apply in_map_iff. exists (Z.to_nat x).
  split; [lia|]. apply in_seq. lia.
Qed.

Lemma all_times_ok :
  forallb (fun h => forallb (fun m => time_ok h m) (zrange 60)) (zrange 24) = true.
Proof. vm_compute. reflexivity. Qed.

Lemma time_ok_at (h m : Z) :
  0 <= h <= 23 -> 0 <= m <= 59 ->
  format_time h m = canon_time h m
  /\ forall x, key (mkEntry (canon_time h m) x) = Some (100 * h + m).
Proof.
  intros Hh Hm.
  pose proof all_times_ok as A.
  rewrite forallb_forall in A.
  specialize (A h (in_zrange h 24 ltac:(lia))).
  rewrite forallb_forall in A.
  specialize (A m (in_zrange m 60 ltac:(lia))).
  unfold time_ok in A. apply andb_prop in A as [A A4].
  apply andb_prop in A as [A A3]. apply andb_prop in A as [A1 A2].
  unfold text_eqb in A1.
  destruct (list_eq_dec Z.eq_dec (format_time h m) (canon_time h m)); [|discriminate].
  split; [assumption|]. intros x.
  unfold key in *; simpl in *.
  destruct (parse_i32 (remove_char COLON (canon_time h m))); [|discriminate].
  apply Z.eqb_eq in A2. now subst.
Qed.

Lemma time_ok_shape (h m : Z) :
  0 <= h <= 23 -> 0 <= m <= 59 ->
  ~ In NL (canon_time h m) /\ trim_start (canon_time h m) = canon_time h m.
Proof.
  intros Hh Hm.
  pose proof all_times_ok as A.
  rewrite forallb_forall in A.
  specialize (A h (in_zrange h 24 ltac:(lia))).
  rewrite forallb_forall in A.
  specialize (A m (in_zrange m 60 ltac:(lia))).
  unfold time_ok in A. apply andb_prop in A as [A A4].
  apply andb_prop in A as [A A3].
  split.
  - intros Hin. apply negb_true_iff in A3.
    assert (Hex : existsb (fun c => c =? NL) (canon_time h m) = true).
    { apply existsb_exists. exists NL. split; [exact Hin | apply Z.eqb_refl]. }
    congruence.
  - unfold text_eqb in A4.
    destruct (list_eq_dec Z.eq_dec (trim_start (canon_time h m)) (canon_time h m));
      [assumption | discriminate].
Qed.

Lemma colon_not_blank (raw : text) :
  In COLON (clean raw) -> trim raw <> [].
Proof.
  intros Hin Ht. unfold clean in Hin. apply filter_In in Hin as [Hin _].
  pose proof (in_trim COLON raw Hin eq_refl) as H. rewrite Ht in H. exact H.
Qed.

Lemma range_check_false (h m : Z) :
  0 <= h <= 23 -> 0 <= m <= 59 ->
  negb ((0 <=? h) && (h <=? 23)) || negb ((0 <=? m) && (m <=? 59)) = false.
Proof.
  intros Hh Hm.
  rewrite (proj2 (Z.leb_le 0 h)), (proj2 (Z.leb_le h 23)),
          (proj2 (Z.leb_le 0 m)), (proj2 (Z.leb_le m 59)) by lia.
  reflexivity.
Qed.

(** ** C1: the time parser on a valid time *)

(** C1: whenever the cleaned input (only digits and [:] kept) splits at
    its first [:] into an hour token and a minute token that parse as
    integers, with hour in [0,23] and minute in [0,59], the parser accepts
    and returns "{hour}:{minute:02}": the hour without leading zero, the
    minute on exactly two digits. *)
Theorem parse_time_canonical (raw hs ms : text) (h m : Z) :
  split_once COLON (clean raw) = Some (hs, ms) ->
  parse_i8 hs = Some h -> parse_i8 ms = Some m ->
  0 <= h <= 23 -> 0 <= m <= 59 ->
  parse_time raw = TOk (canon_time h m).
Proof.
  intros Hs Hh Hm Rh Rm.
  pose proof (colon_not_blank raw (split_once_in _ _ _ _ Hs)) as Hnb.
  unfold parse_time.
  destruct (trim raw) as [|c t] eqn:Ht; [contradiction|].
  rewrite Hs, Hh, Hm, range_check_false by assumption.
  f_equal. apply (time_ok_at h m Rh Rm).
Qed.

Lemma parse_time_canonical_witness :
  parse_time (s "9:5" ++ [NL]) = TOk (canon_time 9 5).
Proof.
  apply (parse_time_canonical _ (s "9") (s "5"));
    [reflexivity | reflexivity | reflexivity | lia | lia].
Defined.

(** ** C2: the time parser on an invalid time *)

(** C2 (counterexample): a line of spaces is non-empty and has no colon,
    yet the parser does not report an invalid time: it cancels. *)
Lemma parse_time_spaces_cancel :
  split_once COLON (clean [32; 32; NL]) = None
  /\ parse_time [32; 32; NL] = TExit
  /\ parse_time [32; 32; NL] <> TInvalid.
Proof. split; [reflexivity|]. split; [reflexivity|discriminate]. Qed.

(** C2 (amended): for a raw time line that is not blank (non-empty after
    trimming whitespace), if the cleaned text has no colon, or a token
    fails to parse, or the hour is outside 0-23, or the minute is outside
    0-59, the parser reports an invalid time, and the time prompt produces
    no entry from that line: it re-prompts on the next line. *)
Theorem parse_time_rejects (raw : text) :
  trim raw <> [] ->
  (split_once COLON (clean raw) = None
   \/ exists hs ms, split_once COLON (clean raw) = Some (hs, ms) /\
        (parse_i8 hs = None \/ parse_i8 ms = None
         \/ (exists h, parse_i8 hs = Some h /\ ~ (0 <= h <= 23))
         \/ (exists m, parse_i8 ms = Some m /\ ~ (0 <= m <= 59)))) ->
  parse_time raw = TInvalid
  /\ forall tgt rest, time_loop tgt (raw :: rest) = time_loop tgt rest.
Proof.
  intros Hnb Hbad.
  assert (Hinv : parse_time raw = TInvalid).
  { unfold parse_time.
    destruct (trim raw) as [|c t] eqn:Ht; [contradiction|].
    destruct Hbad as [-> | (hs & ms & Hs & Hbad)]; [reflexivity|].
    rewrite Hs.
    destruct (parse_i8 hs) as [h|] eqn:Eh, (parse_i8 ms) as [m|] eqn:Em;
      try reflexivity.
    destruct Hbad as [Hb|[Hb|[(h' & Hb & Hr)|(m' & Hb & Hr)]]];
      try discriminate; injection Hb as <-.
    - destruct (Z.leb_spec 0 h), (Z.leb_spec h 23); simpl; try reflexivity; lia.
    - destruct ((0 <=? h) && (h <=? 23)), (Z.leb_spec 0 m), (Z.leb_spec m 59);
        simpl; try reflexivity; lia. }
  split; [exact Hinv|].
  intros tgt rest. simpl. rewrite Hinv. reflexivity.
Qed.

Lemma parse_time_rejects_witness :
  parse_time (s "25:00" ++ [NL]) = TInvalid.
Proof.
  refine (proj1 (parse_time_rejects (s "25:00" ++ [NL]) _ _)).
  - discriminate.
  - right. exists (s "25"), (s "00"). split; [reflexivity|].
    right; right; left. exists 25. split; [reflexivity|lia].
Defined.

(** ** C9: the entry ordering on canonical times *)

(** C9: on canonical valid times, the key of the entry ordering (the
    time with its colon removed, read as a number) is hour*100 + minute,
    and comparing two entries gives the chronological (hour, then minute)
    order. *)
Theorem key_chronological (h1 m1 h2 m2 : Z) (x1 x2 : text) :
  0 <= h1 <= 23 -> 0 <= m1 <= 59 -> 0 <= h2 <= 23 -> 0 <= m2 <= 59 ->
  key (mkEntry (canon_time h1 m1) x1) = Some (100 * h1 + m1)
  /\ entry_cmp (mkEntry (canon_time h1 m1) x1) (mkEntry (canon_time h2 m2) x2)
     = Some (match Z.compare h1 h2 with Eq => Z.compare m1 m2 | c => c end).
Proof.
  intros R1 S1 R2 S2.
  pose proof (proj2 (time_ok_at h1 m1 R1 S1)) as K1.
  pose proof (proj2 (time_ok_at h2 m2 R2 S2)) as K2.
  split; [apply K1|].
  unfold entry_cmp. rewrite K1, K2. f_equal.
  destruct (Z.compare_spec h1 h2);
    [subst; destruct (Z.compare_spec m1 m2) | |];
    apply Z.compare_eq_iff || apply Z.compare_lt_iff || apply Z.compare_gt_iff;
    lia.
Qed.

Lemma key_chronological_witness :
  entry_cmp (ent "9:30" "a") (ent "14:05" "b") = Some Lt.
Proof.
  apply (proj2 (key_chronological 9 30 14 5 (s "a") (s "b")
    ltac:(lia) ltac:(lia) ltac:(lia) ltac:(lia))).
Defined.

(** ** C7: bootstrap of the storage file *)

(** C7: reading an absent file creates it empty and returns no entry; a
    second read of that empty file returns no entry and leaves it as is. *)
Theorem read_bootstrap :
  read None = (Some [], [])
  /\ read (fst (read None)) = (fst (read None), []).
Proof. split; reflexivity. Qed.

(** ** C6: a blank line cancels the whole add-loop *)

Lemma parse_time_blank (l : text) : trim l = [] -> parse_time l = TExit.
Proof. intros H. unfold parse_time. rewrite H. reflexivity. Qed.

Lemma time_loop_invalid_then_blank (tgt : text) (bad : input) (tline : text) (rest : input) :
  Forall (fun l => parse_time l = TInvalid) bad -> trim tline = [] ->
  time_loop tgt (bad ++ tline :: rest) = (TryExit, rest).
Proof.
  intros Hbad Ht. induction Hbad as [|l bad' Hl _ IH]; simpl.
  - rewrite (parse_time_blank tline Ht). reflexivity.
  - rewrite Hl. exact IH.
Qed.

(** C6: a blank line at the task prompt, or at the time prompt (after any
    number of rejected times), ends the whole add-loop as a normal exit:
    the remaining input is not read, no entry is saved (the file is left
    as it was), and the program goes on to the listing. *)
Theorem blank_line_cancels_loop (fs : fstate) (rest : input) :
  (forall task, trim task = [] ->
     add_exec (task :: rest) fs = (ExecOk, fs, rest)
     /\ app_run (task :: rest) fs = RunOk (snd (read fs)) (fst (read fs)))
  /\ (forall task bad tline,
        trim task <> [] -> Forall (fun l => parse_time l = TInvalid) bad ->
        trim tline = [] ->
        add_exec (task :: bad ++ tline :: rest) fs = (ExecOk, fs, rest)
        /\ app_run (task :: bad ++ tline :: rest) fs
           = RunOk (snd (read fs)) (fst (read fs))).
Proof.
  assert (Hrun : forall inp, add_exec inp fs = (ExecOk, fs, rest) ->
            app_run inp fs = RunOk (snd (read fs)) (fst (read fs))).
  { intros inp H. unfold app_run. rewrite H. destruct (read fs). reflexivity. }
  split.
  - intros task Ht.
    assert (E : add_exec (task :: rest) fs = (ExecOk, fs, rest)).
    { unfold add_exec. simpl. unfold try_from. simpl. rewrite Ht. reflexivity. }
    split; [exact E | apply Hrun, E].
  - intros task bad tline Ht Hbad Htl.
    assert (E : add_exec (task :: bad ++ tline :: rest) fs = (ExecOk, fs, rest)).
    { unfold add_exec. simpl. unfold try_from. simpl.
      destruct (trim task) as [|c t] eqn:Et; [contradiction|].
      rewrite (time_loop_invalid_then_blank _ bad tline rest Hbad Htl).
      reflexivity. }
    split; [exact E | apply Hrun, E].
Qed.

Lemma blank_line_cancels_loop_witness :
  add_exec [s "Buy milk"; s "25:00"; [NL]; s "Call mom"; s "10:00"] None
  = (ExecOk, None, [s "Call mom"; s "10:00"]).
Proof.
  refine (proj1 ((proj2 (blank_line_cancels_loop None [s "Call mom"; s "10:00"]))
                   (s "Buy milk") [s "25:00"] [NL] _ _ _)).
  - discriminate.
  - repeat constructor.
  - reflexivity.
Defined.

(** ** C5: which entries the program builds *)

Lemma parse_time_ok (raw t : text) :
  parse_time raw = TOk t -> valid_time t.
Proof.
  unfold parse_time. intros H.
  destruct (trim raw); [discriminate|].
  destruct (split_once COLON (clean raw)) as [[hs ms]|]; [|discriminate].
  destruct (parse_i8 hs) as [h|], (parse_i8 ms) as [m|]; try discriminate.
  destruct (Z.leb_spec 0 h), (Z.leb_spec h 23), (Z.leb_spec 0 m), (Z.leb_spec m 59);
    simpl in H; try discriminate.
  injection H as <-. exists h, m.
  split; [lia|]. split; [lia|]. apply time_ok_at; lia.
Qed.

Lemma time_loop_entry (tgt : text) (inp rest : input) (e : Entry) :
  time_loop tgt inp = (TryEntry e, rest) -> target e = tgt /\ valid_time (time e).
Proof.
  induction inp as [|l inp IH]; simpl; [discriminate|].
  destruct (parse_time l) as [| |t] eqn:E; try discriminate; [exact IH|].
  intros H. injection H as <- _. simpl. split; [reflexivity|].
  eapply parse_time_ok; eassumption.
Qed.

Lemma trim_start_head (t : text) (c : Z) (r : text) :
  trim_start t = c :: r -> is_whitespace c = false.
Proof.
  induction t as [|d t IH]; simpl; [discriminate|].
  destruct (is_whitespace d) eqn:E; [exact IH|].
  intros H. injection H as -> _. exact E.
Qed.

Lemma trim_start_suffix (t : text) : exists w, t = w ++ trim_start t.
Proof.
  induction t as [|d t [w IH]]; simpl; [exists []; reflexivity|].
  destruct (is_whitespace d); [exists (d :: w); simpl; rewrite <- IH|exists []];
    reflexivity.
Qed.

Lemma trim_end_prefix (t : text) : exists w, t = trim_end t ++ w.
Proof.
  destruct (trim_start_suffix (rev t)) as [w Hw].
  exists (rev w). unfold trim_end. rewrite <- rev_app_distr, <- Hw.
  symmetry. apply rev_involutive.
Qed.

Lemma split_once_spec (c : Z) (t a b : text) :
  split_once c t = Some (a, b) -> t = a ++ c :: b.
Proof.
  revert a. induction t as [|d t IH]; simpl; intros a H; [discriminate|].
  destruct (Z.eqb_spec d c) as [->|_].
  - injection H as <- <-. reflexivity.
  - destruct (split_once c t) as [[a' b']|] eqn:E; [|discriminate].
    injection H as <- <-. simpl. f_equal. apply IH. reflexivity.
Qed.

(** A block that [read] turns into an entry has a non-empty first line and
    a non-empty rest: the trimmed block starts and ends with a
    non-whitespace character. *)
Lemma parse_block_nonempty (b : text) (e : Entry) :
  parse_block b = Some e -> time e <> [] /\ target e <> [].
Proof.
  unfold parse_block.
  destruct (split_once NL (trim b)) as [[t x]|] eqn:E; [|discriminate].
  intros H. injection H as <-. simpl.
  apply split_once_spec in E.
  split; intros ->.
  - destruct (trim_end_prefix (trim_start b)) as [w Hw].
    unfold trim in E. rewrite E in Hw. simpl in Hw.
    pose proof (trim_start_head b NL _ Hw). discriminate.
  - unfold trim, trim_end in E.
    apply (f_equal (@rev Z)) in E. rewrite rev_involutive in E.
    rewrite rev_app_distr in E. simpl in E.
    pose proof (trim_start_head _ NL _ E). discriminate.
Qed.

Lemma parse_blocks_nonempty (bs : list text) (e : Entry) :
  In e (parse_blocks bs) -> time e <> [] /\ target e <> [].
Proof.
  induction bs as [|b bs IH]; simpl; [tauto|].
  destruct (parse_block b) as [e'|] eqn:E; [|exact IH].
  intros [<- | Hin]; [eapply parse_block_nonempty; eassumption | auto].
Qed.

(** C5 (counterexample): [read] does not check the time line: the file
    block "25:00\nx" comes back as an entry with the out-of-range time
    "25:00", and the next [save] writes it back to the file. *)
Lemma read_keeps_invalid_time :
  snd (read (Some (s "25:00" ++ [NL] ++ s "x" ++ [NL; NL]))) = [ent "25:00" "x"]
  /\ ~ valid_time (s "25:00")
  /\ save (Some (s "25:00" ++ [NL] ++ s "x" ++ [NL; NL])) (ent "9:30" "a")
     = Done (Some (serialize [ent "9:30" "a"; ent "25:00" "x"])).
Proof.
  split; [vm_compute; reflexivity|].
  split; [|vm_compute; reflexivity].
  intros (h & m & Hh & Hm & E).
  change (s "25:00") with [50; 53; 58; 48; 48] in E.
  unfold canon_time in E.
  destruct (Z.ltb_spec h 10); simpl in E; [discriminate|].
  injection E as E1 E2 _ _. unfold digit in E1, E2.
  Z.div_mod_to_equations. lia.
Qed.

(** C5 (amended): an entry built from keyboard input has a non-empty
    target and a canonical in-range time; an entry re-hydrated by [read]
    from any file content has a non-empty time line and a non-empty
    target, but its time is not validated. *)
Theorem entries_built_valid :
  (forall inp e rest, try_from inp = (TryEntry e, rest) ->
     target e <> [] /\ valid_time (time e))
  /\ (forall buf e, In e (snd (read (Some buf))) ->
     time e <> [] /\ target e <> []).
Proof.
  split.
  - intros inp e rest. unfold try_from.
    destruct (read_line inp) as [line inp1].
    destruct (trim line) as [|c t] eqn:Et; [discriminate|].
    intros H. apply time_loop_entry in H as [-> Hv].
    split; [discriminate | exact Hv].
  - intros buf e. simpl. apply parse_blocks_nonempty.
Qed.

Lemma entries_built_valid_witness :
  try_from [s "Buy milk"; s "9:5"] = (TryEntry (ent "9:05" "Buy milk"), [])
  /\ target (ent "9:05" "Buy milk") <> [] /\ valid_time (s "9:05").
Proof.
  assert (E : try_from [s "Buy milk"; s "9:5"] = (TryEntry (ent "9:05" "Buy milk"), []))
    by reflexivity.
  split; [exact E|].
  exact (proj1 entries_built_valid _ _ _ E).
Defined.

(** ** C8: reading blocks *)

Lemma split_go_step (cur : text) (c : Z) (t : text) :
  c <> NL -> split_go cur (c :: t) = split_go (cur ++ [c]) t.
Proof.
  intros Hc. simpl. apply Z.eqb_neq in Hc. rewrite Hc.
  destruct t; reflexivity.
Qed.

Lemma split_go_no_nl (cur w t : text) :
  ~ In NL w -> split_go cur (w ++ t) = split_go (cur ++ w) t.
Proof.
  revert cur. induction w as [|c w IH]; intros cur Hw.
  - rewrite app_nil_r. reflexivity.
  - rewrite <- app_comm_cons.
    rewrite split_go_step by (intros ->; apply Hw; now left).
    rewrite IH by (intros H; apply Hw; now right).
    rewrite <- app_assoc. reflexivity.
Qed.

Lemma split_go_nl_single (cur : text) (d : Z) (t : text) :
  d <> NL -> split_go cur (NL :: d :: t) = split_go (cur ++ [NL]) (d :: t).
Proof.
  intros Hd.
  change (split_go cur (NL :: d :: t)) with
    (if (NL =? NL) && (d =? NL) then cur :: split_go [] t
     else split_go (cur ++ [NL]) (d :: t)).
  apply Z.eqb_neq in Hd. rewrite Hd, andb_false_r. reflexivity.
Qed.

Lemma split_go_block (b : text) (r : option Entry) (cur rest : text) :
  block_shape b r ->
  split_go cur (b ++ NL :: NL :: rest) = (cur ++ b) :: split_go [] rest.
Proof.
  intros Hs. destruct Hs as [b Hb | l1 l2 H1 H2 T1 T2].
  - rewrite split_go_no_nl by exact Hb. reflexivity.
  - rewrite <- app_assoc. simpl.
    rewrite split_go_no_nl by exact H1.
    destruct l2 as [|d l2']; [destruct T2 as (c & [] & _)|].
    assert (Hd : d <> NL) by (intros ->; apply H2; now left).
    rewrite <- app_comm_cons, split_go_nl_single by exact Hd.
    rewrite app_comm_cons, split_go_no_nl by exact H2.
    simpl. rewrite <- !app_assoc. reflexivity.
Qed.

Lemma split_go_file (bs : list text) (rs : list (option Entry)) :
  Forall2 block_shape bs rs -> split_go [] (file_of_blocks bs) = bs ++ [[]].
Proof.
  induction 1 as [|b r bs rs Hb _ IH]; [reflexivity|].
  unfold file_of_blocks. simpl. rewrite <- app_assoc. simpl.
  rewrite (split_go_block b r [] _ Hb). f_equal. exact IH.
Qed.

Lemma drop_trailing_empty_app (bs : list text) :
  drop_trailing_empty (bs ++ [[]]) = bs.
Proof.
  induction bs as [|b bs IH]; [reflexivity|].
  destruct bs as [|b' bs']; simpl in *; [reflexivity|].
  rewrite IH. reflexivity.
Qed.

Lemma in_trim_start_sub (x : Z) (t : text) : In x (trim_start t) -> In x t.
Proof.
  induction t as [|c t IH]; simpl; [tauto|].
  destruct (is_whitespace c); [intros H; right; auto | tauto].
Qed.

Lemma in_trim_sub (x : Z) (t : text) : In x (trim t) -> In x t.
Proof.
  unfold trim, trim_end. intros H.
  apply (proj2 (in_rev _ _)), in_trim_start_sub, (proj2 (in_rev _ _)) in H.
  apply in_trim_start_sub in H. exact H.
Qed.

Lemma trim_start_app (l r : text) :
  has_text l -> trim_start (l ++ r) = trim_start l ++ r.
Proof.
  induction l as [|c l IH]; intros (d & Hd & Hws); [destruct Hd|].
  simpl. destruct (is_whitespace c) eqn:Ec; [|reflexivity].
  apply IH. exists d. split; [|exact Hws].
  destruct Hd as [-> | Hd]; [congruence | exact Hd].
Qed.

Lemma has_text_rev (l : text) : has_text l -> has_text (rev l).
Proof. intros (c & H & W). exists c. split; [apply (proj1 (in_rev _ _)) |]; assumption. Qed.

Lemma trim_end_app (u l : text) :
  has_text l -> trim_end (u ++ l) = u ++ trim_end l.
Proof.
  intros H. unfold trim_end. rewrite rev_app_distr.
  rewrite trim_start_app by (apply has_text_rev; exact H).
  rewrite rev_app_distr, rev_involutive. reflexivity.
Qed.

Lemma split_once_app (c : Z) (a b : text) :
  ~ In c a -> split_once c (a ++ c :: b) = Some (a, b).
Proof.
  induction a as [|d a IH]; intros Ha; simpl.
  - rewrite Z.eqb_refl. reflexivity.
  - assert (Hd : d <> c) by (intros ->; apply Ha; now left).
    apply Z.eqb_neq in Hd. rewrite Hd.
    rewrite IH by (intros H; apply Ha; now right). reflexivity.
Qed.

Lemma parse_block_shape (b : text) (r : option Entry) :
  block_shape b r -> parse_block b = r.
Proof.
  intros Hs. destruct Hs as [b Hb | l1 l2 H1 H2 T1 T2]; unfold parse_block.
  - destruct (split_once NL (trim b)) as [[t x]|] eqn:E; [|reflexivity].
    apply split_once_in, in_trim_sub in E. contradiction.
  - unfold trim. rewrite trim_start_app by exact T1.
    replace (trim_start l1 ++ NL :: l2) with ((trim_start l1 ++ [NL]) ++ l2)
      by (rewrite <- app_assoc; reflexivity).
    rewrite trim_end_app by exact T2. rewrite <- app_assoc. simpl.
    rewrite split_once_app by (intros H; apply H1, in_trim_start_sub, H).
    reflexivity.
Qed.

Lemma read_shaped (bs : list text) (rs : list (option Entry)) :
  Forall2 block_shape bs rs ->
  read (Some (file_of_blocks bs)) = (Some (file_of_blocks bs), flat_map option_list rs).
Proof.
  intros H. simpl. f_equal. unfold split_terminator_nn.
  rewrite (split_go_file bs rs H), drop_trailing_empty_app.
  induction H as [|b r bs rs Hb _ IH]; [reflexivity|].
  simpl. rewrite (parse_block_shape b r Hb).
  destruct r; simpl; rewrite IH; reflexivity.
Qed.

Lemma split_go_cons (cur t : text) (c : Z) :
  match t with d :: _ => (c =? NL) && (d =? NL) = false | [] => True end ->
  split_go cur (c :: t) = split_go (cur ++ [c]) t.
Proof.
  intros H. destruct t as [|d t]; [reflexivity|].
  cbn [split_go]. rewrite H. reflexivity.
Qed.

Lemma split_go_sep (b : text) (cur rest : text) :
  no_dnl b = true -> ends_nl b = false ->
  split_go cur (b ++ NL :: NL :: rest) = (cur ++ b) :: split_go [] rest.
Proof.
  revert cur. induction b as [|c b IH]; intros cur Hn He.
  - rewrite app_nil_r. reflexivity.
  - rewrite <- app_comm_cons. rewrite split_go_cons.
    + rewrite IH; [rewrite <- app_assoc; reflexivity | |].
      * destruct b as [|d b]; [reflexivity|]. apply andb_prop in Hn. apply Hn.
      * destruct b as [|d b]; [reflexivity|]. exact He.
    + destruct b as [|d b]; simpl.
      * simpl in He. rewrite He. reflexivity.
      * apply andb_prop in Hn as [Hn _]. apply negb_true_iff in Hn. exact Hn.
Qed.

Lemma split_go_last (b : text) (cur : text) :
  no_dnl b = true -> split_go cur b = [cur ++ b].
Proof.
  revert cur. induction b as [|c b IH]; intros cur Hn.
  - rewrite app_nil_r. reflexivity.
  - rewrite split_go_cons.
    + rewrite IH; [rewrite <- app_assoc; reflexivity|].
      destruct b as [|d b]; [reflexivity|]. apply andb_prop in Hn. apply Hn.
    + destruct b as [|d b]; [exact I|].
      apply andb_prop in Hn as [Hn _]. apply negb_true_iff in Hn. exact Hn.
Qed.

Lemma split_go_join (bs : list text) :
  separated bs -> split_go [] (join_blocks bs) = bs.
Proof.
  induction bs as [|b bs IH]; [intros []|].
  destruct bs as [|b' bs].
  - intros Hn. apply split_go_last, Hn.
  - intros (Hn & He & Hs). change (join_blocks (b :: b' :: bs))
      with (b ++ NL :: NL :: join_blocks (b' :: bs)).
    rewrite split_go_sep by assumption. rewrite IH by exact Hs. reflexivity.
Qed.

Lemma join_blocks_cons (c : Z) (p : text) (ps : list text) :
  join_blocks ((c :: p) :: ps) = c :: join_blocks (p :: ps).
Proof. destruct ps; reflexivity. Qed.

Lemma split_go_pieces (n : nat) (t cur : text) :
  (length t <= n)%nat ->
  exists p ps, split_go cur t = (cur ++ p) :: ps
    /\ t = join_blocks (p :: ps) /\ separated (p :: ps).
Proof.
  revert t cur. induction n as [|n IH]; intros t cur Hl.
  - destruct t; [|simpl in Hl; lia].
    exists [], []. rewrite app_nil_r. repeat split.
  - destruct t as [|c [|d r]].
    + exists [], []. rewrite app_nil_r. repeat split.
    + exists [c], []. repeat split.
    + destruct ((c =? NL) && (d =? NL)) eqn:Ecd.
      * apply andb_prop in Ecd as [Ec Ed].
        apply Z.eqb_eq in Ec, Ed. subst c d.
        destruct (IH r [] ltac:(simpl in Hl; lia)) as (p' & ps' & E & Hj & Hs).
        exists [], (p' :: ps').
        cbn [split_go]. rewrite Z.eqb_refl. simpl andb. cbv iota beta.
        rewrite E, !app_nil_r. split; [reflexivity|].
        split; [simpl; f_equal; f_equal; exact Hj | ].
        simpl. split; [reflexivity|]. split; [reflexivity | exact Hs].
      * rewrite (split_go_cons cur (d :: r) c Ecd).
        destruct (IH (d :: r) (cur ++ [c]) ltac:(simpl in Hl |- *; lia))
          as (p' & ps' & E & Hj & Hs).
        exists (c :: p'), ps'. rewrite E, <- app_assoc. split; [reflexivity|].
        split; [rewrite join_blocks_cons; f_equal; exact Hj|].
        assert (Hhead : match p' with e :: _ => e = d | [] => True end).
        { destruct p' as [|e p'']; [exact I|].
          rewrite join_blocks_cons in Hj. injection Hj as ->. reflexivity. }
        assert (Hn : no_dnl (c :: p') = true).
        { destruct p' as [|e p'']; [reflexivity|]. subst e. cbn [no_dnl].
          rewrite Ecd. simpl. destruct ps' as [|q ps'']; [exact Hs | apply Hs]. }
        destruct ps' as [|q ps''].
        { exact Hn. }
        split; [exact Hn|]. destruct Hs as (_ & He & Hs). split; [|exact Hs].
        destruct p' as [|e p''].
        { change (join_blocks ([] :: q :: ps'')) with (NL :: NL :: join_blocks (q :: ps''))
            in Hj.
          injection Hj as Hd _. subst d. change (ends_nl [c]) with (c =? NL).
          rewrite Z.eqb_refl, andb_true_r in Ecd. exact Ecd. }
        exact He.
Qed.

Lemma parse_blocks_flat (bs : list text) :
  parse_blocks bs = flat_map block_entries bs.
Proof.
  induction bs as [|b bs IH]; [reflexivity|].
  simpl. unfold parse_block, block_entries.
  destruct (split_once NL (trim b)) as [[t x]|]; simpl; rewrite IH; reflexivity.
Qed.

Lemma drop_trailing_empty_flat (bs : list text) :
  flat_map block_entries (drop_trailing_empty bs) = flat_map block_entries bs.
Proof.
  induction bs as [|b bs IH]; [reflexivity|].
  destruct bs as [|b' bs].
  - destruct b; reflexivity.
  - change (drop_trailing_empty (b :: b' :: bs)) with (b :: drop_trailing_empty (b' :: bs)).
    simpl. f_equal. exact IH.
Qed.

(** C8: every file content splits in exactly one way into
    blocks at its blank-line separators (leftmost first, as
    [split_terminator("\n\n")] does), and [read] raises no error, leaves
    the file as it is, and returns, in file order, one entry for each block
    whose trimmed text splits into a first line and a remainder; every
    other block is omitted.  This covers unterminated last blocks, blocks
    with blank lines and runs of three or more newlines. *)
Theorem read_blocks_in_order (buf : text) :
  exists bs, buf = join_blocks bs /\ separated bs
    /\ (forall bs', buf = join_blocks bs' -> separated bs' -> bs' = bs)
    /\ read (Some buf) = (Some buf, flat_map block_entries bs).
Proof.
  destruct (split_go_pieces (length buf) buf [] (le_n _)) as (p & ps & E & Hj & Hs).
  exists (p :: ps). split; [exact Hj|]. split; [exact Hs|]. split.
  - intros bs' Hj' Hs'. rewrite <- (split_go_join bs' Hs'), <- Hj'. exact E.
  - simpl. f_equal. unfold split_terminator_nn. rewrite E.
    rewrite parse_blocks_flat, drop_trailing_empty_flat. reflexivity.
Qed.

(** The files of the example: an unterminated last block, a block whose
    first line is blank, and a run of three newlines. *)
Example read_unterminated :
  snd (read (Some (s "junk" ++ [NL; NL] ++ s "9:00" ++ [NL] ++ s "A")))
  = [ent "9:00" "A"].
Proof. vm_compute. reflexivity. Qed.

Example read_blank_line_block :
  snd (read (Some ([32; NL] ++ s "x" ++ [NL; NL] ++ s "9:00" ++ [NL] ++ s "A" ++ [NL; NL])))
  = [ent "9:00" "A"].
Proof. vm_compute. reflexivity. Qed.

Example read_three_newlines :
  snd (read (Some (s "9:00" ++ [NL] ++ s "A" ++ [NL; NL; NL] ++ s "10:00" ++ [NL] ++ s "B")))
  = [ent "9:00" "A"; ent "10:00" "B"].
Proof. vm_compute. reflexivity. Qed.

(** ** The sort of [Storage::save] *)

Lemma entry_cmp_none (a b : Entry) :
  entry_cmp a b = None -> key a = None \/ key b = None.
Proof.
  unfold entry_cmp. destruct (key a), (key b); auto; discriminate.
Qed.

Lemma entry_cmp_some (a b : Entry) (c : comparison) :
  entry_cmp a b = Some c -> good a /\ good b.
Proof.
  unfold entry_cmp, good. destruct (key a), (key b); try discriminate.
  split; discriminate.
Qed.

Lemma insert_sorted_perm (x : Entry) (l r : list Entry) :
  insert_sorted x l = Some r -> Permutation r (x :: l).
Proof.
  revert r. induction l as [|y l IH]; simpl; intros r H.
  - injection H as <-. reflexivity.
  - destruct (entry_cmp x y) as [[| |]|]; try discriminate;
      try (injection H as <-; reflexivity);
      (destruct (insert_sorted x l) as [r'|] eqn:E; [|discriminate];
       injection H as <-; rewrite (IH r' eq_refl); apply perm_swap).
Qed.

Lemma insert_sorted_none (x : Entry) (l : list Entry) :
  insert_sorted x l = None ->
  l <> [] /\ (key x = None \/ exists y, In y l /\ key y = None).
Proof.
  induction l as [|y l IH]; simpl; [discriminate|].
  destruct (entry_cmp x y) as [[| |]|] eqn:C; try discriminate;
    try (destruct (insert_sorted x l); [discriminate|];
         intros _; destruct (IH eq_refl) as [_ [Hx | (z & Hz & Hk)]];
         split; [discriminate | now left | discriminate | right; exists z; auto]).
  intros _. split; [discriminate|].
  destruct (entry_cmp_none x y C); [now left | right; exists y; auto].
Qed.

Lemma insert_sorted_cons_some (x y : Entry) (l r : list Entry) :
  insert_sorted x (y :: l) = Some r -> good x /\ good y.
Proof.
  simpl. destruct (entry_cmp x y) as [c|] eqn:C; [|discriminate].
  intros _. eapply entry_cmp_some; eassumption.
Qed.

Lemma sort_go_none (acc l : list Entry) :
  sort_go acc l = None ->
  (2 <= length (acc ++ l))%nat /\ exists y, In y (acc ++ l) /\ key y = None.
Proof.
  revert acc. induction l as [|x l IH]; intros acc; simpl; [discriminate|].
  destruct (insert_sorted x acc) as [acc'|] eqn:E.
  - intros H. destruct (IH acc' H) as [Hl (y & Hy & Hk)].
    pose proof (insert_sorted_perm x acc acc' E) as P.
    assert (P' : Permutation (acc' ++ l) (acc ++ x :: l)).
    { rewrite P. simpl. apply Permutation_middle. }
    split.
    + rewrite <- (Permutation_length P'). exact Hl.
    + exists y. split; [apply (Permutation_in _ P' Hy) | exact Hk].
  - intros _. destruct (insert_sorted_none x acc E) as [Hne Hbad].
    destruct acc as [|a acc]; [contradiction|].
    split; [rewrite length_app; simpl; lia|].
    destruct Hbad as [Hx | (y & Hy & Hk)].
    + exists x. split; [apply in_or_app; right; now left | exact Hx].
    + exists y. split; [apply in_or_app; now left | exact Hk].
Qed.

Lemma sort_go_some_good (acc l r : list Entry) :
  ((length acc <= 1)%nat \/ Forall good acc) ->
  sort_go acc l = Some r ->
  (length (acc ++ l) <= 1)%nat \/ Forall good (acc ++ l).
Proof.
  revert acc. induction l as [|x l IH]; intros acc Hacc; simpl.
  - intros _. rewrite app_nil_r. destruct Hacc; [left; lia | now right].
  - destruct (insert_sorted x acc) as [acc'|] eqn:E; [|discriminate].
    intros H.
    pose proof (insert_sorted_perm x acc acc' E) as P.
    assert (P' : Permutation (acc' ++ l) (acc ++ x :: l)).
    { rewrite P. simpl. apply Permutation_middle. }
    destruct acc as [|a acc0].
    + simpl in E. injection E as <-. apply (IH [x]); [left; simpl; lia | exact H].
    + destruct (insert_sorted_cons_some x a acc0 acc' E) as [Gx Ga].
      assert (Gacc : Forall good acc').
      { apply (Permutation_Forall (Permutation_sym P)).
        constructor; [exact Gx|].
        destruct Hacc as [Hlen | Hall]; [|exact Hall].
        destruct acc0; [constructor; [exact Ga | constructor] | simpl in Hlen; lia]. }
      destruct (IH acc' (or_intror Gacc) H) as [Hl | Hg].
      * left. rewrite <- (Permutation_length P'). exact Hl.
      * right. exact (Permutation_Forall P' Hg).
Qed.

(** [list.sort()] panics exactly when there are at least two entries and
    one of them has an unparseable key. *)
Lemma sort_none_iff (l : list Entry) :
  sort l = None <-> ((2 <= length l)%nat /\ exists y, In y l /\ key y = None).
Proof.
  split.
  - apply sort_go_none.
  - intros [Hl (y & Hy & Hk)].
    destruct (sort l) as [r|] eqn:E; [|reflexivity].
    destruct (sort_go_some_good [] l r (or_introl (Nat.le_0_l 1)) E) as [H | H];
      simpl in H; [lia|].
    rewrite Forall_forall in H. exfalso. exact (H y Hy Hk).
Qed.

(** ** C10: when [Storage::save] panics *)

(** C10 (counterexample): the missing key alone does not make [save]
    panic.  A new entry with an unparseable time saved into an empty
    storage is written without any comparison; and a two-line file block
    with an empty first line is dropped by [read] (the block is trimmed
    first), so [save] does not panic on it. *)
Lemma save_no_panic_cases :
  key (ent "abc" "x") = None
  /\ save None (ent "abc" "x") = Done (Some (serialize [ent "abc" "x"]))
  /\ save (Some ([NL] ++ s "x" ++ [NL; NL])) (ent "9:00" "A")
     = Done (Some (serialize [ent "9:00" "A"])).
Proof. vm_compute. split; [reflexivity|]. split; reflexivity. Qed.

(** C10 (amended): [save] panics (the [unwrap] of the comparison) exactly
    when the list it sorts, the entries read from the file plus the new
    one, has at least two entries and one of them has a time whose
    colon-stripped form does not parse as an [i32]. *)
Theorem save_panics_iff (fs : fstate) (e : Entry) :
  save fs e = Panic <->
  (snd (read fs) <> [] /\ exists y, In y (snd (read fs) ++ [e]) /\ key y = None).
Proof.
  unfold save. destruct (read fs) as [f1 prev]. simpl.
  pose proof (sort_none_iff (prev ++ [e])) as Hs.
  rewrite length_app in Hs. simpl in Hs.
  assert (Hlen : (2 <= length prev + 1)%nat <-> prev <> []).
  { destruct prev; simpl; split; intros H; try lia; congruence. }
  destruct (sort (prev ++ [e])) as [r|]; split; intros H.
  - discriminate.
  - exfalso. destruct H as [Hne Hbad].
    assert (Hn : (Some r : option (list Entry)) = None)
      by (apply Hs; split; [apply Hlen, Hne | exact Hbad]).
    discriminate.
  - destruct (proj1 Hs eq_refl) as [Hl Hbad]. split; [apply Hlen, Hl | exact Hbad].
  - reflexivity.
Qed.

Lemma save_panics_iff_witness :
  save (Some (s "abc" ++ [NL] ++ s "x" ++ [NL; NL])) (ent "9:00" "A") = Panic.
Proof.
  apply save_panics_iff. split.
  - vm_compute. discriminate.
  - exists (ent "abc" "x"). split; [vm_compute; now left | reflexivity].
Defined.

Lemma key_le_trans (a b c : Entry) : key_le a b -> key_le b c -> key_le a c.
Proof.
  intros (x & y & Ha & Hb & Hxy) (y' & z & Hb' & Hc & Hyz).
  rewrite Hb in Hb'. injection Hb' as <-. exists x, z. repeat split; auto. lia.
Qed.

Lemma filter_above (kx : Z) (m : list Entry) :
  (forall z, In z m -> exists kz, key z = Some kz /\ kx < kz) ->
  filter (has_key (Some kx)) m = [].
Proof.
  induction m as [|z m IH]; intros H; [reflexivity|].
  simpl. destruct (H z (or_introl eq_refl)) as (kz & Hz & Hlt).
  unfold has_key at 1. rewrite Hz. simpl.
  destruct (Z.eqb_spec kz kx); [lia|].
  apply IH. intros w Hw. apply H. now right.
Qed.

(** Insertion of an entry with a parseable key into a sorted list of such
    entries: sorted result, a permutation, and stable (the new entry comes
    after every entry with the same key). *)
Lemma insert_sorted_spec (x : Entry) (kx : Z) (l : list Entry) :
  key x = Some kx -> Forall good l -> StronglySorted key_le l ->
  exists r, insert_sorted x l = Some r
    /\ StronglySorted key_le r
    /\ Permutation r (x :: l)
    /\ forall k, filter (has_key k) r = filter (has_key k) (l ++ [x]).
Proof.
  intros Hx. induction l as [|y l IH]; intros Hg Hs.
  - exists [x]. repeat split; [repeat constructor | reflexivity].
  - inversion Hg as [|? ? Gy Gl]; subst.
    apply StronglySorted_inv in Hs as [Hs Hy].
    destruct (key y) as [ky|] eqn:Ky; [|contradiction].
    assert (Ge : forall z, In z l -> exists kz, key z = Some kz /\ ky <= kz).
    { intros z Hz. rewrite Forall_forall in Hy.
      destruct (Hy z Hz) as (a & b & Ha & Hb & Hab).
      rewrite Ky in Ha. injection Ha as <-. exists b. auto. }
    simpl. unfold entry_cmp at 1. rewrite Hx, Ky.
    destruct (Z.compare_spec kx ky) as [Heq | Hlt | Hgt].
    2: { exists (x :: y :: l). split; [reflexivity|]. split; [|split].
         - constructor; [constructor; assumption|].
           constructor.
           + exists kx, ky. repeat split; auto. lia.
           + rewrite Forall_forall. intros z Hz.
             destruct (Ge z Hz) as (kz & Hz' & Hle).
             exists kx, kz. repeat split; auto. lia.
         - reflexivity.
         - intros k.
           change (y :: l ++ [x]) with ((y :: l) ++ [x]). rewrite filter_app.
           replace (filter (has_key k) (x :: y :: l)) with
             (if has_key k x then x :: filter (has_key k) (y :: l)
              else filter (has_key k) (y :: l)) by reflexivity.
           destruct (has_key k x) eqn:Hk.
           + unfold has_key in Hk. rewrite Hx in Hk.
             destruct k as [k|]; [|discriminate]. simpl in Hk.
             apply Z.eqb_eq in Hk. subst k.
             assert (Hl : filter (has_key (Some kx)) l = []).
             { apply filter_above.
               intros z Hz. destruct (Ge z Hz) as (kz & ? & ?).
               exists kz. split; [auto | lia]. }
             assert (Hy' : has_key (Some kx) y = false).
             { unfold has_key. rewrite Ky. simpl. apply Z.eqb_neq. lia. }
             assert (Hx' : has_key (Some kx) x = true).
             { unfold has_key. rewrite Hx. simpl. apply Z.eqb_refl. }
             simpl. rewrite Hy', Hl, Hx'. reflexivity.
           + assert (Hn : filter (has_key k) [x] = []) by (simpl; rewrite Hk; reflexivity).
             rewrite Hn, app_nil_r. reflexivity. }
    all: destruct (IH Gl Hs) as (r' & E & Sr & Pr & Fr);
      rewrite E; exists (y :: r'); split; [reflexivity|]; split; [|split].
    1, 4: constructor; [exact Sr|];
      apply (Permutation_Forall (Permutation_sym Pr)); constructor;
      [ exists ky, kx; repeat split; auto; lia
      | rewrite Forall_forall; intros z Hz; destruct (Ge z Hz) as (kz & ? & ?);
        exists ky, kz; repeat split; auto ].
    1, 3: rewrite Pr; apply perm_swap.
    all: intros k; simpl; rewrite Fr; reflexivity.
Qed.

Lemma sort_go_spec (acc l : list Entry) :
  Forall good (acc ++ l) -> StronglySorted key_le acc ->
  exists r, sort_go acc l = Some r
    /\ StronglySorted key_le r
    /\ Permutation r (acc ++ l)
    /\ forall k, filter (has_key k) r = filter (has_key k) (acc ++ l).
Proof.
  revert acc. induction l as [|x l IH]; intros acc Hg Hs.
  - exists acc. rewrite app_nil_r. repeat split; auto.
  - apply Forall_app in Hg as [Ga Gxl]. inversion Gxl as [|? ? Gx Gl]; subst.
    destruct (key x) as [kx|] eqn:Kx; [|contradiction].
    destruct (insert_sorted_spec x kx acc Kx Ga Hs) as (acc' & E & Sa & Pa & Fa).
    simpl. rewrite E.
    assert (P' : Permutation (acc' ++ l) (acc ++ x :: l)).
    { rewrite Pa. simpl. apply Permutation_middle. }
    destruct (IH acc') as (r & E' & Sr & Pr & Fr).
    + apply (Permutation_Forall (Permutation_sym P')), Forall_app.
      split; [exact Ga | constructor; assumption].
    + exact Sa.
    + exists r. split; [exact E'|]. split; [exact Sr|]. split.
      * rewrite Pr. exact P'.
      * intros k. rewrite Fr, filter_app, Fa, <- filter_app, <- app_assoc.
        reflexivity.
Qed.

(** The outcome of a successful [save]: the file holds the entries read
    plus the new one, sorted and stable. *)
Lemma save_done (fs fs' : fstate) (e : Entry) :
  save fs e = Done fs' ->
  exists l, fs' = Some (serialize l)
    /\ Permutation l (snd (read fs) ++ [e])
    /\ StronglySorted key_le l
    /\ forall k, filter (has_key k) l = filter (has_key k) (snd (read fs) ++ [e]).
Proof.
  unfold save. destruct (read fs) as [f1 prev]. simpl.
  destruct (sort (prev ++ [e])) as [r|] eqn:E; [|discriminate].
  intros H. injection H as <-. exists r. split; [reflexivity|].
  destruct prev as [|p prev].
  - simpl in E. injection E as <-. repeat split; repeat constructor.
  - destruct (sort_go_some_good [] (p :: prev ++ [e]) r (or_introl (Nat.le_0_l 1)) E)
      as [Hl | Hg]; [simpl in Hl; rewrite length_app in Hl; simpl in Hl; lia|].
    destruct (sort_go_spec [] (p :: prev ++ [e]) Hg (SSorted_nil _))
      as (r' & E' & S' & P' & F').
    unfold sort in E. change ((p :: prev) ++ [e]) with (p :: prev ++ [e]) in E.
    rewrite E in E'. injection E' as <-. auto.
Qed.

(** ** C3: what a successful save writes *)

(** C3: after a successful [save], the file holds exactly the entries
    read from it plus the new one, serialized in ascending key order, and
    entries with equal keys keep their order from before the sort (the
    list read, then the new entry). *)
Theorem save_sorted_merge (fs fs' : fstate) (e : Entry) :
  save fs e = Done fs' ->
  exists l, fs' = Some (serialize l)
    /\ Permutation l (snd (read fs) ++ [e])
    /\ Sorted key_le l
    /\ forall k, filter (has_key k) l = filter (has_key k) (snd (read fs) ++ [e]).
Proof.
  intros H. destruct (save_done fs fs' e H) as (l & Hf & Hp & Hs & Hk).
  exists l. split; [exact Hf|]. split; [exact Hp|]. split; [|exact Hk].
  apply StronglySorted_Sorted. exact Hs.
Qed.

Lemma save_sorted_merge_witness :
  exists l, Some (serialize [ent "9:00" "Call mom"; ent "14:30" "Meeting"])
            = Some (serialize l)
    /\ Permutation l ([ent "14:30" "Meeting"] ++ [ent "9:00" "Call mom"])
    /\ Sorted key_le l
    /\ forall k, filter (has_key k) l
                 = filter (has_key k) ([ent "14:30" "Meeting"] ++ [ent "9:00" "Call mom"]).
Proof.
  apply (save_sorted_merge (Some (serialize [ent "14:30" "Meeting"]))).
  vm_compute. reflexivity.
Defined.

(** ** C4: saving entries one by one, then reading them back *)

Lemma trim_end_last (t : text) :
  t <> [] -> is_whitespace (last t 0) = false -> trim_end t = t.
Proof.
  intros Hne Hws. unfold trim_end.
  rewrite (app_removelast_last 0 Hne), rev_app_distr. simpl.
  rewrite Hws. simpl. rewrite rev_involutive. reflexivity.
Qed.

Lemma valid_block (e : Entry) : valid_entry e -> block_shape (block_of e) (Some e).
Proof.
  destruct e as [t x]. intros ((h & m & Hh & Hm & Ht) & Hne & Hnl & Hws).
  simpl in *. subst t.
  destruct (time_ok_shape h m Hh Hm) as [Tnl Tts].
  unfold block_of. simpl.
  pattern (canon_time h m) at 2. rewrite <- Tts.
  pattern x at 2. rewrite <- (trim_end_last x Hne Hws).
  apply block_two_lines; [exact Tnl | exact Hnl | |].
  - destruct (canon_time h m) as [|c r] eqn:E; [unfold canon_time in E; destruct (h <? 10); discriminate|].
    exists c. split; [now left|]. eapply trim_start_head. exact Tts.
  - exists (last x 0). split; [|exact Hws].
    rewrite (app_removelast_last 0 Hne) at 2. apply in_or_app. right. now left.
Qed.

Lemma serialize_blocks (l : list Entry) : serialize l = file_of_blocks (map block_of l).
Proof.
  induction l as [|e l IH]; [reflexivity|].
  unfold serialize, file_of_blocks in *. simpl. rewrite IH.
  unfold serialize_entry, block_of. rewrite <- !app_assoc. reflexivity.
Qed.

Lemma read_serialize (l : list Entry) :
  Forall valid_entry l -> read (Some (serialize l)) = (Some (serialize l), l).
Proof.
  intros Hv. rewrite serialize_blocks.
  rewrite (read_shaped (map block_of l) (map Some l)).
  - f_equal. clear Hv. induction l as [|e l IH]; [reflexivity|]. simpl. f_equal. exact IH.
  - induction Hv as [|e l He _ IH]; constructor; [apply valid_block, He | exact IH].
Qed.

Lemma valid_good (e : Entry) : valid_entry e -> good e.
Proof.
  destruct e as [t x]. intros ((h & m & Hh & Hm & Ht) & _). simpl in Ht. subst t.
  unfold good. rewrite (proj2 (time_ok_at h m Hh Hm) x). discriminate.
Qed.

Lemma save_all_serialized (es l : list Entry) :
  Forall valid_entry l -> Forall valid_entry es -> StronglySorted key_le l ->
  exists l', save_all (Some (serialize l)) es = Done (Some (serialize l'))
    /\ Permutation l' (l ++ es) /\ StronglySorted key_le l' /\ Forall valid_entry l'.
Proof.
  revert l. induction es as [|e es IH]; intros l Hl Hes Hs.
  - exists l. rewrite app_nil_r. auto.
  - inversion Hes as [|? ? He Hes']; subst.
    assert (Hg : Forall good ([] ++ l ++ [e])).
    { simpl. apply Forall_app. split; [|constructor; [apply valid_good, He | constructor]].
      eapply Forall_impl; [exact valid_good | exact Hl]. }
    destruct (sort_go_spec [] (l ++ [e]) Hg (SSorted_nil _)) as (r & E & Sr & Pr & _).
    assert (Hsave : save (Some (serialize l)) e = Done (Some (serialize r))).
    { unfold save. rewrite (read_serialize l Hl). unfold sort. rewrite E. reflexivity. }
    assert (Hr : Forall valid_entry r).
    { apply (Permutation_Forall (Permutation_sym Pr)). simpl.
      apply Forall_app. split; [exact Hl | constructor; [exact He | constructor]]. }
    destruct (IH r Hr Hes' Sr) as (l' & E' & P' & S' & V').
    exists l'. simpl. rewrite Hsave. split; [exact E'|]. split; [|auto].
    rewrite P', Pr. simpl. rewrite <- app_assoc. reflexivity.
Qed.

(** C4 (counterexample): "9:00" is a canonical time and "x " and " " are
    non-empty one-line targets, but [read] trims each block, so after
    saving the first into an empty storage it reads back with target "x",
    and the second is not read back at all. *)
Lemma roundtrip_trailing_whitespace :
  valid_time (s "9:00")
  /\ save_all None [ent "9:00" "x "] = Done (Some (serialize [ent "9:00" "x "]))
  /\ snd (read (Some (serialize [ent "9:00" "x "]))) = [ent "9:00" "x"]
  /\ save_all None [ent "9:00" " "] = Done (Some (serialize [ent "9:00" " "]))
  /\ snd (read (Some (serialize [ent "9:00" " "]))) = [].
Proof.
  split; [exists 9, 0; split; [lia|]; split; [lia|]; vm_compute; reflexivity|].
  vm_compute. repeat split.
Qed.

(** C4 (amended): saving N entries with a canonical time and a non-empty
    one-line target not ending in whitespace (as every keyboard-built
    entry is) into an empty storage, one after the other, succeeds, and
    [read] then returns exactly those N entries (as a multiset), in
    ascending key order. *)
Theorem save_read_roundtrip (fs0 : fstate) (es : list Entry) :
  (fs0 = None \/ fs0 = Some []) -> Forall valid_entry es ->
  exists fs, save_all fs0 es = Done fs
    /\ Permutation (snd (read fs)) es /\ Sorted key_le (snd (read fs)).
Proof.
  intros H0 Hes.
  destruct es as [|e es].
  - exists fs0. destruct H0 as [-> | ->]; split; auto.
  - assert (E0 : save_all fs0 (e :: es) = save_all (Some (serialize [])) (e :: es))
      by (destruct H0 as [-> | ->]; reflexivity).
    destruct (save_all_serialized (e :: es) [] (Forall_nil _) Hes (SSorted_nil _))
      as (l' & E & P & S & V).
    exists (Some (serialize l')). rewrite E0, E. split; [reflexivity|].
    rewrite (read_serialize l' V). simpl.
    split; [exact P | apply StronglySorted_Sorted, S].
Qed.

Lemma save_read_roundtrip_witness :
  exists fs, save_all None [ent "14:30" "Meeting"; ent "9:00" "Call mom"] = Done fs
    /\ Permutation (snd (read fs)) [ent "14:30" "Meeting"; ent "9:00" "Call mom"]
    /\ Sorted key_le (snd (read fs)).
Proof.
  apply save_read_roundtrip; [now left|].
  constructor; [|constructor; [|constructor]].
  - split; [exists 14, 30; split; [lia|]; split; [lia|]; reflexivity|].
    split; [discriminate|]. split; [intros H; vm_compute in H; lia | reflexivity].
  - split; [exists 9, 0; split; [lia|]; split; [lia|]; reflexivity|].
    split; [discriminate|]. split; [intros H; vm_compute in H; lia | reflexivity].
Defined.

(** * Further properties of the program *)

(** ** The time parser *)

Lemma all_reparse_ok :
  forallb (fun h => forallb (fun m => reparse_ok h m) (zrange 60)) (zrange 24) = true.
Proof. vm_compute. reflexivity. Qed.

(** The time parser is a normalisation: its output, typed again at the
    time prompt, is accepted and left unchanged. *)
Theorem parse_time_idempotent (raw t : text) :
  parse_time raw = TOk t -> parse_time t = TOk t.
Proof.
  intros H. destruct (parse_time_ok raw t H) as (h & m & Hh & Hm & ->).
  pose proof all_reparse_ok as A.
  rewrite forallb_forall in A. specialize (A h (in_zrange h 24 ltac:(lia))).
  rewrite forallb_forall in A. specialize (A m (in_zrange m 60 ltac:(lia))).
  unfold reparse_ok in A.
  destruct (parse_time (canon_time h m)) as [| |t']; try discriminate.
  unfold text_eqb in A.
  destruct (list_eq_dec Z.eq_dec t' (canon_time h m)) as [->|]; [reflexivity|discriminate].
Qed.

Lemma parse_time_idempotent_witness :
  parse_time (s " 09h : 5 " ++ [NL]) = TOk (s "9:05") /\ parse_time (s "9:05") = TOk (s "9:05").
Proof.
  assert (H : parse_time (s " 09h : 5 " ++ [NL]) = TOk (s "9:05")) by reflexivity.
  split; [exact H | exact (parse_time_idempotent _ _ H)].
Defined.

(** Two canonical times have the same sort key only if they are the same
    string: among times the parser produced, the sort ties exactly the
    entries with identical times. *)
Theorem key_injective_canonical (h1 m1 h2 m2 : Z) (x1 x2 : text) :
  0 <= h1 <= 23 -> 0 <= m1 <= 59 -> 0 <= h2 <= 23 -> 0 <= m2 <= 59 ->
  key (mkEntry (canon_time h1 m1) x1) = key (mkEntry (canon_time h2 m2) x2) ->
  h1 = h2 /\ m1 = m2.
Proof.
  intros R1 S1 R2 S2 H.
  rewrite (proj2 (time_ok_at h1 m1 R1 S1)), (proj2 (time_ok_at h2 m2 R2 S2)) in H.
  assert (E : 100 * h1 + m1 = 100 * h2 + m2) by congruence. lia.
Qed.

Lemma key_injective_canonical_witness :
  key (mkEntry (canon_time 9 5) (s "a")) = key (mkEntry (canon_time 9 5) (s "b"))
  /\ (9 = 9 /\ 5 = 5).
Proof.
  assert (H : key (mkEntry (canon_time 9 5) (s "a")) = key (mkEntry (canon_time 9 5) (s "b")))
    by reflexivity.
  split; [exact H|].
  apply (key_injective_canonical 9 5 9 5 (s "a") (s "b")); try lia. exact H.
Defined.

(** ** Reading one entry from the console *)

(** [Entry::try_from] reads the task line, keeps it trimmed as the target,
    then skips every rejected time line and stops at the first accepted
    one, leaving the rest of the input unread. *)
Theorem try_from_reads_entry (task : text) (bad : input) (tline t : text) (rest : input) :
  trim task <> [] -> Forall (fun l => parse_time l = TInvalid) bad ->
  parse_time tline = TOk t ->
  try_from (task :: bad ++ tline :: rest) = (TryEntry (mkEntry t (trim task)), rest).
Proof.
  intros Ht Hbad Hok. unfold try_from. simpl.
  destruct (trim task) as [|c r] eqn:E; [contradiction|].
  induction Hbad as [|l bad' Hl _ IH]; simpl.
  - rewrite Hok. reflexivity.
  - rewrite Hl. exact IH.
Qed.

Lemma try_from_reads_entry_witness :
  try_from [s "  Buy milk "; s "25:00"; s "noon"; s "9:5"; s "Next"]
  = (TryEntry (mkEntry (s "9:05") (s "Buy milk")), [s "Next"]).
Proof.
  apply (try_from_reads_entry (s "  Buy milk ") [s "25:00"; s "noon"] (s "9:5")).
  - discriminate.
  - repeat constructor.
  - reflexivity.
Defined.

(** ** The storage file format *)

(** A file written by [save] from entries of the kind the keyboard path
    builds is read back by [read] as exactly those entries, in order, and
    [read] leaves the file unchanged. *)
Theorem serialize_read_roundtrip (l : list Entry) :
  Forall valid_entry l -> read (Some (serialize l)) = (Some (serialize l), l).
Proof. apply read_serialize. Qed.

Lemma serialize_read_roundtrip_witness :
  read (Some (serialize [ent "9:00" "Call mom"; ent "14:30" "Meeting"]))
  = (Some (serialize [ent "9:00" "Call mom"; ent "14:30" "Meeting"]),
     [ent "9:00" "Call mom"; ent "14:30" "Meeting"]).
Proof.
  apply serialize_read_roundtrip.
  constructor; [|constructor; [|constructor]].
  - split; [exists 9, 0; split; [lia|]; split; [lia|]; reflexivity|].
    split; [discriminate|]. split; [intros H; vm_compute in H; lia | reflexivity].
  - split; [exists 14, 30; split; [lia|]; split; [lia|]; reflexivity|].
    split; [discriminate|]. split; [intros H; vm_compute in H; lia | reflexivity].
Defined.

(** ** Where [save] puts the new entry *)

Lemma insert_sorted_last (x : Entry) (acc : list Entry) :
  good x -> Forall good acc -> Forall (fun y => key_le y x) acc ->
  insert_sorted x acc = Some (acc ++ [x]).
Proof.
  intros Gx. induction acc as [|y acc IH]; intros Ga Hle; [reflexivity|].
  inversion Ga as [|? ? Gy Gacc]; inversion Hle as [|? ? (ky & kx & Ky & Kx & Hk) Hle']; subst.
  simpl. unfold entry_cmp at 1. rewrite Kx, Ky.
  rewrite (IH Gacc Hle').
  destruct (Z.compare_spec kx ky); [reflexivity | lia | reflexivity].
Qed.

Lemma strongly_sorted_cross (l1 l2 : list Entry) :
  StronglySorted key_le (l1 ++ l2) -> forall a b, In a l1 -> In b l2 -> key_le a b.
Proof.
  induction l1 as [|c l1 IH]; intros Hs a b Ha Hb; [destruct Ha|].
  simpl in Hs. apply StronglySorted_inv in Hs as [Hs Hc].
  destruct Ha as [<-|Ha].
  - rewrite Forall_forall in Hc. apply Hc, in_or_app. now right.
  - exact (IH Hs a b Ha Hb).
Qed.

Lemma sort_go_sorted (acc l : list Entry) :
  Forall good (acc ++ l) -> StronglySorted key_le (acc ++ l) ->
  sort_go acc l = Some (acc ++ l).
Proof.
  revert acc. induction l as [|x l IH]; intros acc Hg Hs.
  - rewrite app_nil_r. reflexivity.
  - simpl.
    apply Forall_app in Hg as [Ga Gxl]. inversion Gxl as [|? ? Gx Gl]; subst.
    rewrite insert_sorted_last; [|exact Gx|exact Ga|].
    + replace (acc ++ x :: l) with ((acc ++ [x]) ++ l) by (rewrite <- app_assoc; reflexivity).
      apply IH; rewrite <- app_assoc; [apply Forall_app; auto | exact Hs].
    + rewrite Forall_forall. intros y Hy.
      apply (strongly_sorted_cross acc (x :: l) Hs); [exact Hy | now left].
Qed.

Lemma sort_go_app (acc l1 l2 : list Entry) :
  sort_go acc (l1 ++ l2)
  = match sort_go acc l1 with Some a => sort_go a l2 | None => None end.
Proof.
  revert acc. induction l1 as [|x l1 IH]; intros acc; [reflexivity|].
  simpl. destruct (insert_sorted x acc); [apply IH | reflexivity].
Qed.

Lemma insert_sorted_split (e : Entry) (ke : Z) (l : list Entry) :
  key e = Some ke -> Forall good l -> StronglySorted key_le l ->
  exists l1 l2, l = l1 ++ l2
    /\ Forall (fun y => exists ky, key y = Some ky /\ ky <= ke) l1
    /\ Forall (fun y => exists ky, key y = Some ky /\ ke < ky) l2
    /\ insert_sorted e l = Some (l1 ++ e :: l2).
Proof.
  intros Ke. induction l as [|y l IH]; intros Hg Hs.
  - exists [], []. repeat split; constructor.
  - inversion Hg as [|? ? Gy Gl]; subst.
    apply StronglySorted_inv in Hs as [Hs Hy].
    destruct (key y) as [ky|] eqn:Ky; [|contradiction].
    simpl. unfold entry_cmp at 1. rewrite Ke, Ky.
    destruct (Z.compare_spec ke ky) as [Heq|Hlt|Hgt].
    2: { exists [], (y :: l). split; [reflexivity|]. split; [constructor|].
         split; [|reflexivity].
         constructor; [exists ky; auto|].
         rewrite Forall_forall in *. intros z Hz.
         destruct (Hy z Hz) as (a & b & Ha & Hb & Hab).
         rewrite Ky in Ha. injection Ha as <-. exists b. split; [auto | lia]. }
    all: destruct (IH Gl Hs) as (l1 & l2 & -> & H1 & H2 & E);
      rewrite E; exists (y :: l1), l2; split; [reflexivity|];
      split; [constructor; [exists ky; split; [auto | lia] | exact H1]|];
      split; [exact H2 | reflexivity].
Qed.

(** Saving into a file the program wrote (sorted entries of the keyboard
    kind) writes the old entries back in their order, with the new entry
    placed after every entry whose time is the same or earlier and before
    every later one. *)
Theorem save_inserts_in_place (l : list Entry) (e : Entry) (ke : Z) :
  Forall valid_entry l -> Sorted key_le l -> key e = Some ke ->
  exists l1 l2, l = l1 ++ l2
    /\ Forall (fun y => exists ky, key y = Some ky /\ ky <= ke) l1
    /\ Forall (fun y => exists ky, key y = Some ky /\ ke < ky) l2
    /\ save (Some (serialize l)) e = Done (Some (serialize (l1 ++ e :: l2))).
Proof.
  intros Hv Hs Ke.
  apply Sorted_StronglySorted in Hs; [|intros a b c; apply key_le_trans].
  assert (Hg : Forall good l) by (eapply Forall_impl; [exact valid_good | exact Hv]).
  destruct (insert_sorted_split e ke l Ke Hg Hs) as (l1 & l2 & Hl & H1 & H2 & E).
  exists l1, l2. split; [exact Hl|]. split; [exact H1|]. split; [exact H2|].
  unfold save. rewrite (read_serialize l Hv). unfold sort.
  rewrite sort_go_app, (sort_go_sorted [] l Hg Hs). simpl. rewrite E. reflexivity.
Qed.

Lemma save_inserts_in_place_witness :
  Forall valid_entry [ent "8:00" "Gym"; ent "9:00" "Call"; ent "12:00" "Lunch"]
  /\ Sorted key_le [ent "8:00" "Gym"; ent "9:00" "Call"; ent "12:00" "Lunch"]
  /\ key (ent "9:00" "Shop") = Some 900
  /\ exists l1 l2,
       [ent "8:00" "Gym"; ent "9:00" "Call"; ent "12:00" "Lunch"] = l1 ++ l2
       /\ Forall (fun y => exists ky, key y = Some ky /\ ky <= 900) l1
       /\ Forall (fun y => exists ky, key y = Some ky /\ 900 < ky) l2
       /\ save (Some (serialize [ent "8:00" "Gym"; ent "9:00" "Call"; ent "12:00" "Lunch"]))
               (ent "9:00" "Shop")
          = Done (Some (serialize (l1 ++ ent "9:00" "Shop" :: l2))).
Proof.
  assert (Hv : Forall valid_entry [ent "8:00" "Gym"; ent "9:00" "Call"; ent "12:00" "Lunch"]).
  { constructor; [|constructor; [|constructor; [|constructor]]];
      (split; [|split; [discriminate|split; [intros H; vm_compute in H; lia|reflexivity]]]).
    - exists 8, 0. split; [lia|]. split; [lia|]. reflexivity.
    - exists 9, 0. split; [lia|]. split; [lia|]. reflexivity.
    - exists 12, 0. split; [lia|]. split; [lia|]. reflexivity. }
  assert (Hs : Sorted key_le [ent "8:00" "Gym"; ent "9:00" "Call"; ent "12:00" "Lunch"]).
  { repeat constructor; unfold key_le; do 2 eexists;
      (split; [vm_compute; reflexivity | split; [vm_compute; reflexivity | lia]]). }
  assert (Hk : key (ent "9:00" "Shop") = Some 900) by (vm_compute; reflexivity).
  split; [exact Hv|]. split; [exact Hs|]. split; [exact Hk|].
  exact (save_inserts_in_place _ _ 900 Hv Hs Hk).
Defined.

(** ** The add-loop: termination and composition *)

Lemma time_loop_consumes (tgt : text) (inp rest : input) (r : try_result) :
  time_loop tgt inp = (r, rest) -> exists p, inp = p ++ rest
    /\ (forall e, r = TryEntry e -> p <> []).
Proof.
  revert r rest. induction inp as [|l inp IH]; intros r rest; simpl.
  - intros H. injection H as <- <-. exists []. split; [reflexivity | discriminate].
  - destruct (parse_time l) as [| |t].
    + intros H. injection H as <- <-. exists [l]. split; [reflexivity | discriminate].
    + intros H. destruct (IH r rest H) as (p & -> & _).
      exists (l :: p). split; [reflexivity | discriminate].
    + intros H. injection H as <- <-. exists [l]. split; [reflexivity | discriminate].
Qed.

Lemma try_from_consumes (inp rest : input) (r : try_result) :
  try_from inp = (r, rest) -> exists p, inp = p ++ rest
    /\ (forall e, r = TryEntry e -> p <> []).
Proof.
  unfold try_from. destruct inp as [|l inp]; simpl.
  - intros H. injection H as <- <-. exists []. split; [reflexivity | discriminate].
  - destruct (trim l) as [|c t].
    + intros H. injection H as <- <-. exists [l]. split; [reflexivity | discriminate].
    + intros H. destruct (time_loop_consumes _ _ _ _ H) as (p & -> & _).
      exists (l :: p). split; [reflexivity | discriminate].
Qed.

Lemma try_from_entry_shorter (inp rest : input) (e : Entry) :
  try_from inp = (TryEntry e, rest) -> (length rest < length inp)%nat.
Proof.
  intros H. destruct (try_from_consumes _ _ _ H) as (p & -> & Hp).
  specialize (Hp e eq_refl). rewrite length_app.
  destruct p; [congruence | simpl; lia].
Qed.

Lemma add_loop_fuel (n : nat) (inp : input) (fs : fstate) :
  (length inp < n)%nat -> add_loop n inp fs = add_exec inp fs.
Proof.
  unfold add_exec. remember (S (length inp)) as m eqn:Hm.
  assert (Hlt : (length inp < m)%nat) by lia. clear Hm.
  revert m inp fs Hlt. induction n as [|n IH]; intros m inp fs Hm Hn; [lia|].
  destruct m as [|m]; [lia|]. simpl.
  destruct (try_from inp) as [[|e] rest] eqn:E; [reflexivity|].
  pose proof (try_from_entry_shorter _ _ _ E).
  destruct (save fs e); [apply IH; lia | reflexivity].
Qed.

Lemma add_loop_never_out_of_fuel (n : nat) (inp : input) (fs : fstate) :
  (length inp < n)%nat -> fst (fst (add_loop n inp fs)) <> ExecOutOfFuel.
Proof.
  revert inp fs. induction n as [|n IH]; intros inp fs Hn; [lia|]. simpl.
  destruct (try_from inp) as [[|e] rest] eqn:E; [discriminate|].
  pose proof (try_from_entry_shorter _ _ _ E).
  destruct (save fs e); [apply IH; lia | discriminate].
Qed.

(** On any finite input the add-loop ends, by a blank line (or the end of
    input, which reads as an empty line) or by a panic: every round that
    does not stop consumes at least one line. *)
Theorem add_loop_terminates (inp : input) (fs : fstate) :
  fst (fst (add_exec inp fs)) <> ExecOutOfFuel /\ app_run inp fs <> RunOutOfFuel.
Proof.
  pose proof (add_loop_never_out_of_fuel (S (length inp)) inp fs (Nat.lt_succ_diag_r _)) as H.
  split; [exact H|]. unfold app_run. fold (add_exec inp fs) in H.
  destruct (add_exec inp fs) as [[[| |] fs'] rest]; simpl in H.
  - destruct (read fs'). discriminate.
  - discriminate.
  - contradiction.
Qed.


Lemma add_loop_session (pairs : list (text * text)) (es : list Entry)
    (blank : text) (rest : input) (n : nat) (fs fs' : fstate) :
  Forall2 typed_entry pairs es -> trim blank = [] -> save_all fs es = Done fs' ->
  (length (session_input pairs ++ blank :: rest) < n)%nat ->
  add_loop n (session_input pairs ++ blank :: rest) fs = (ExecOk, fs', rest).
Proof.
  intros H2. revert n fs. induction H2 as [|[task tl] e pairs es (Ht & Htl & Hx) _ IH];
    intros n fs Hb Hs Hn.
  - simpl in Hs. injection Hs as <-. destruct n as [|n]; [simpl in Hn; lia|].
    simpl. unfold try_from. simpl. rewrite Hb. reflexivity.
  - simpl in Ht, Htl, Hx, Hs |- *. destruct n as [|n]; [simpl in Hn; lia|].
    simpl. unfold try_from. simpl.
    destruct (trim task) as [|c t] eqn:Et; [contradiction|].
    simpl. rewrite Htl. destruct e as [te xe]. simpl in Hx |- *. subst xe.
    destruct (save fs (mkEntry te (c :: t))) as [fs1|]; [|discriminate].
    apply IH; [exact Hb | exact Hs | simpl in Hn; lia].
Qed.

Lemma add_loop_session_panic (pairs : list (text * text)) (es : list Entry)
    (blank : text) (rest : input) (n : nat) (fs : fstate) :
  Forall2 typed_entry pairs es -> save_all fs es = Panic ->
  (length (session_input pairs ++ blank :: rest) < n)%nat ->
  fst (fst (add_loop n (session_input pairs ++ blank :: rest) fs)) = ExecPanic.
Proof.
  intros H2. revert n fs. induction H2 as [|[task tl] e pairs es (Ht & Htl & Hx) _ IH];
    intros n fs Hs Hn; [discriminate|].
  simpl in Ht, Htl, Hx, Hs |- *. destruct n as [|n]; [simpl in Hn; lia|].
  simpl. unfold try_from. simpl.
  destruct (trim task) as [|c t] eqn:Et; [contradiction|].
  simpl. rewrite Htl. destruct e as [te xe]. simpl in Hx |- *. subst xe.
  destruct (save fs (mkEntry te (c :: t))) as [fs1|]; [|reflexivity].
  apply IH; [exact Hs | simpl in Hn; lia].
Qed.

(** A session of task/time pairs (each task non-blank, each time accepted
    at the first try) closed by a blank line has the effect of saving the
    typed entries one after the other, in the order typed: when every save
    succeeds the loop ends normally with the file [save_all] gives and the
    lines after the blank one left unread; when one of the saves panics,
    the session panics. *)
Theorem add_exec_session (pairs : list (text * text)) (es : list Entry)
    (blank : text) (rest : input) (fs : fstate) :
  Forall2 typed_entry pairs es -> trim blank = [] ->
  (forall fs', save_all fs es = Done fs' ->
     add_exec (session_input pairs ++ blank :: rest) fs = (ExecOk, fs', rest))
  /\ (save_all fs es = Panic ->
      fst (fst (add_exec (session_input pairs ++ blank :: rest) fs)) = ExecPanic).
Proof.
  intros H2 Hb. unfold add_exec. split.
  - intros fs' Hs. apply add_loop_session with es; auto.
  - intros Hs. apply add_loop_session_panic with es; auto.
Qed.

Lemma add_exec_session_witness :
  Forall2 typed_entry [(s "Call mom", s "14:30"); (s " Gym ", s "7:5")]
    [ent "14:30" "Call mom"; ent "7:05" "Gym"]
  /\ trim [] = []
  /\ save_all None [ent "14:30" "Call mom"; ent "7:05" "Gym"]
     = Done (Some (serialize [ent "7:05" "Gym"; ent "14:30" "Call mom"]))
  /\ add_exec (session_input [(s "Call mom", s "14:30"); (s " Gym ", s "7:5")]
               ++ [] :: [s "later"]) None
     = (ExecOk, Some (serialize [ent "7:05" "Gym"; ent "14:30" "Call mom"]), [s "later"])
  /\ save_all (Some (s "abc" ++ [NL] ++ s "x" ++ [NL; NL])) [ent "14:30" "Call mom"] = Panic
  /\ fst (fst (add_exec (session_input [(s "Call mom", s "14:30")] ++ [] :: [])
                        (Some (s "abc" ++ [NL] ++ s "x" ++ [NL; NL])))) = ExecPanic.
Proof.
  assert (H2 : Forall2 typed_entry [(s "Call mom", s "14:30"); (s " Gym ", s "7:5")]
                 [ent "14:30" "Call mom"; ent "7:05" "Gym"]).
  { constructor; [|constructor; [|constructor]]; unfold typed_entry; simpl;
      (split; [vm_compute; discriminate | split; vm_compute; reflexivity]). }
  assert (H1 : Forall2 typed_entry [(s "Call mom", s "14:30")] [ent "14:30" "Call mom"]).
  { constructor; [|constructor]; unfold typed_entry; simpl;
      (split; [vm_compute; discriminate | split; vm_compute; reflexivity]). }
  assert (Hs : save_all None [ent "14:30" "Call mom"; ent "7:05" "Gym"]
               = Done (Some (serialize [ent "7:05" "Gym"; ent "14:30" "Call mom"])))
    by (vm_compute; reflexivity).
  assert (Hp : save_all (Some (s "abc" ++ [NL] ++ s "x" ++ [NL; NL])) [ent "14:30" "Call mom"]
               = Panic) by (vm_compute; reflexivity).
  split; [exact H2|]. split; [reflexivity|]. split; [exact Hs|].
  split; [exact (proj1 (add_exec_session _ _ [] [s "later"] None H2 eq_refl) _ Hs)|].
  split; [exact Hp|].
  exact (proj2 (add_exec_session _ _ [] [] _ H1 eq_refl) Hp).
Defined.

(** ** Keyboard sessions never panic *)

Lemma trim_start_snoc (b : text) (c : Z) :
  trim_start (b ++ [c]) = trim_start b ++ [c]
  \/ (trim_start b = [] /\ trim_start (b ++ [c]) = trim_start [c]).
Proof.
  induction b as [|d b IH]; [right; split; reflexivity|].
  simpl. destruct (is_whitespace d); [exact IH | left; reflexivity].
Qed.

Lemma trim_end_snoc_ws (t : text) (c : Z) :
  is_whitespace c = true -> trim_end (t ++ [c]) = trim_end t.
Proof.
  intros Hc. unfold trim_end. rewrite rev_app_distr. simpl. rewrite Hc. reflexivity.
Qed.

Lemma trim_snoc_ws (b : text) (c : Z) :
  is_whitespace c = true -> trim (b ++ [c]) = trim b.
Proof.
  intros Hc. unfold trim.
  destruct (trim_start_snoc b c) as [E | [E1 E2]].
  - rewrite E. apply trim_end_snoc_ws, Hc.
  - rewrite E2, E1. simpl. rewrite Hc. reflexivity.
Qed.

Lemma trim_last (t : text) :
  trim t <> [] -> is_whitespace (last (trim t) 0) = false.
Proof.
  unfold trim, trim_end. intros H.
  destruct (trim_start (rev (trim_start t))) as [|c r] eqn:E; [contradiction|].
  simpl. rewrite last_last. exact (trim_start_head _ _ _ E).
Qed.

Lemma console_target (l : text) :
  console_line l -> trim l <> [] ->
  trim l <> [] /\ ~ In NL (trim l) /\ is_whitespace (last (trim l) 0) = false.
Proof.
  intros (b & Hb & Hl) Hne. split; [exact Hne|]. split; [|apply trim_last, Hne].
  assert (E : trim l = trim b) by (destruct Hl as [-> | ->]; [reflexivity | apply trim_snoc_ws; reflexivity]).
  rewrite E. intros Hin. apply Hb, (in_trim_sub _ _ Hin).
Qed.

Lemma trim_idem (t : text) : trim (trim t) = trim t.
Proof.
  destruct (trim t) as [|c u] eqn:E; [reflexivity|].
  assert (Hl : is_whitespace (last (c :: u) 0) = false)
    by (rewrite <- E; apply trim_last; rewrite E; discriminate).
  assert (Hc : is_whitespace c = false).
  { unfold trim in E. destruct (trim_start t) as [|d r] eqn:Es; [discriminate|].
    destruct (trim_end_prefix (d :: r)) as (w & Hw). rewrite E in Hw.
    injection Hw as -> _. exact (trim_start_head _ _ _ Es). }
  unfold trim. simpl. rewrite Hc. apply trim_end_last; [discriminate | exact Hl].
Qed.

Lemma try_from_valid (inp rest : input) (e : Entry) :
  Forall console_line inp -> try_from inp = (TryEntry e, rest) ->
  valid_entry e /\ trimmed e /\ Forall console_line rest.
Proof.
  intros Hc H.
  destruct (try_from_consumes _ _ _ H) as (p & Hp & _).
  assert (Hr : Forall console_line rest)
    by (rewrite Hp in Hc; apply Forall_app in Hc; apply Hc).
  unfold try_from in H. destruct inp as [|l inp]; simpl in H; [discriminate|].
  inversion Hc as [|? ? Hl _]; subst.
  destruct (trim l) as [|c t] eqn:Et; [discriminate|].
  destruct (time_loop_entry _ _ _ _ H) as [Htg Hti].
  rewrite <- Et in Htg.
  destruct (console_target l Hl) as (Hne & Hnl & Hws); [rewrite Et; discriminate|].
  split; [split; [exact Hti|]; rewrite Htg; auto|].
  split; [unfold trimmed; rewrite Htg; apply trim_idem | exact Hr].
Qed.

Lemma save_program_file (fs : fstate) (e : Entry) :
  program_file fs -> valid_entry e -> trimmed e ->
  exists fs', save fs e = Done fs' /\ program_file fs'.
Proof.
  intros Hf He Ht.
  assert (Hl : exists l, Forall valid_entry l /\ Forall trimmed l /\ StronglySorted key_le l
                 /\ save fs e = save (Some (serialize l)) e).
  { destruct Hf as [-> | (l & Hv & Htr & Hs & ->)].
    - exists []. split; [constructor|]. split; [constructor|]. split; [constructor | reflexivity].
    - exists l. auto. }
  destruct Hl as (l & Hv & Htr & Hs & ->).
  destruct (save_all_serialized [e] l Hv (Forall_cons _ He (Forall_nil _)) Hs)
    as (l' & E & P & Hs' & Hv').
  simpl in E. destruct (save (Some (serialize l)) e) as [fs'|]; [|discriminate].
  injection E as ->. exists (Some (serialize l')). split; [reflexivity|].
  right. exists l'. split; [exact Hv'|]. split; [|auto].
  apply (Permutation_Forall (Permutation_sym P)), Forall_app. split; [exact Htr|auto].
Qed.

Lemma add_loop_program_file (n : nat) (inp : input) (fs : fstate) :
  (length inp < n)%nat -> Forall console_line inp -> program_file fs ->
  exists fs' rest, add_loop n inp fs = (ExecOk, fs', rest) /\ program_file fs'.
Proof.
  revert inp fs. induction n as [|n IH]; intros inp fs Hn Hc Hf; [lia|].
  simpl. destruct (try_from inp) as [[|e] rest] eqn:E.
  - exists fs, rest. auto.
  - pose proof (try_from_entry_shorter _ _ _ E).
    destruct (try_from_valid _ _ _ Hc E) as (He & Ht & Hr).
    destruct (save_program_file fs e Hf He Ht) as (fs1 & -> & Hf1).
    apply IH; [lia | exact Hr | exact Hf1].
Qed.

(** A session typed at the console (every line one line of text, with or
    without its newline) on a storage file that is absent or was written
    by the program (sorted entries of the keyboard kind, with trimmed
    targets) never panics: the loop ends normally and the listing shows
    the file's entries, sorted by time, each with a canonical time and a
    non-empty one-line trimmed target; the file holds exactly their
    serialization. *)
Theorem console_session_no_panic (inp : input) (fs0 : fstate) :
  Forall console_line inp ->
  (fs0 = None \/ exists l0, Forall valid_entry l0 /\ Forall trimmed l0
                            /\ Sorted key_le l0 /\ fs0 = Some (serialize l0)) ->
  exists l, app_run inp fs0 = RunOk l (Some (serialize l))
    /\ Sorted key_le l /\ Forall valid_entry l /\ Forall trimmed l.
Proof.
  intros Hc H0.
  assert (Hf : program_file fs0).
  { destruct H0 as [-> | (l0 & Hv & Ht & Hs & ->)]; [now left|]. right. exists l0.
    split; [exact Hv|]. split; [exact Ht|]. split; [|reflexivity].
    apply Sorted_StronglySorted; [intros a b c; apply key_le_trans | exact Hs]. }
  destruct (add_loop_program_file (S (length inp)) inp fs0 (Nat.lt_succ_diag_r _) Hc Hf)
    as (fs' & rest & E & [-> | (l & Hv & Ht & Hs & ->)]);
    unfold app_run, add_exec; rewrite E.
  - exists []. split; [reflexivity|]. split; [constructor|]. split; constructor.
  - exists l. rewrite (read_serialize l Hv).
    split; [reflexivity|]. split; [apply StronglySorted_Sorted, Hs|]. split; assumption.
Qed.

Lemma console_session_no_panic_witness :
  Forall console_line [s "Gym" ++ [NL]; s "7:5" ++ [NL]; s "Call mom" ++ [NL];
                       s "25:00" ++ [NL]; s "6:30" ++ [NL]; [NL]]
  /\ exists l, app_run [s "Gym" ++ [NL]; s "7:5" ++ [NL]; s "Call mom" ++ [NL];
                       s "25:00" ++ [NL]; s "6:30" ++ [NL]; [NL]] None
            = RunOk l (Some (serialize l))
       /\ Sorted key_le l /\ Forall valid_entry l /\ Forall trimmed l.
Proof.
  assert (Hc : Forall console_line [s "Gym" ++ [NL]; s "7:5" ++ [NL]; s "Call mom" ++ [NL];
                                     s "25:00" ++ [NL]; s "6:30" ++ [NL]; [NL]]).
  { repeat apply Forall_cons; try apply Forall_nil;
      [..|exists []; split; [intros [] | now right]];
      match goal with |- console_line (?b ++ [NL]) =>
        exists b; split; [intros H; vm_compute in H; lia | now right] end. }
  split; [exact Hc|].
  exact (console_session_no_panic _ None Hc (or_introl eq_refl)).
Defined.

(** ** What the time parser looks at *)

Lemma count_clean_colon (raw : text) :
  count_occ Z.eq_dec (clean raw) COLON = count_occ Z.eq_dec raw COLON.
Proof.
  unfold clean. induction raw as [|c raw IH]; [reflexivity|].
  simpl. destruct (Z.eq_dec c COLON) as [->|Hne].
  - simpl. rewrite IH. reflexivity.
  - destruct ((48 <=? c) && (c <=? 58)); simpl; [|exact IH].
    destruct (Z.eq_dec c COLON); [contradiction | exact IH].
Qed.

Lemma split_once_first (c : Z) (t a b : text) :
  split_once c t = Some (a, b) -> ~ In c a.
Proof.
  revert a. induction t as [|d t IH]; simpl; intros a H; [discriminate|].
  destruct (Z.eqb_spec d c) as [->|Hne].
  - injection H as <- _. intros [].
  - destruct (split_once c t) as [[a' b']|] eqn:E; [|discriminate].
    injection H as <- <-. intros [-> | Hin]; [contradiction | exact (IH a' eq_refl Hin)].
Qed.

Lemma digits_value_nondigit (x acc : Z) (t : text) :
  In x t -> is_digit x = false -> digits_value acc t = None.
Proof.
  revert acc. induction t as [|c t IH]; intros acc Hin Hx; [destruct Hin|].
  simpl. destruct Hin as [-> | Hin]; [rewrite Hx; reflexivity|].
  destruct (is_digit c); [apply IH; assumption | reflexivity].
Qed.

Lemma parse_int_colon (lo hi : Z) (t : text) :
  In COLON t -> parse_int lo hi t = None.
Proof.
  intros Hin. unfold parse_int.
  assert (Hd : forall acc u, In COLON u -> digits_value acc u = None)
    by (intros acc u Hu; apply (digits_value_nondigit COLON); [exact Hu | reflexivity]).
  destruct t as [|c [|d t]]; [destruct Hin| |].
  - destruct Hin as [E | []]. subst c. reflexivity.
  - destruct (Z.eqb_spec c 43) as [->|H43].
    + rewrite Hd; [reflexivity|]. destruct Hin as [E|]; [discriminate | assumption].
    + destruct (Z.eqb_spec c 45) as [->|H45].
      * rewrite Hd; [reflexivity|]. destruct Hin as [E|]; [discriminate | assumption].
      * rewrite Hd; [reflexivity | exact Hin].
Qed.

(** A time line with two or more colons is always rejected as an invalid
    time: the text after the first colon still holds a colon and never
    parses as the minutes. *)
Theorem parse_time_two_colons (raw : text) :
  (2 <= count_occ Z.eq_dec raw COLON)%nat -> parse_time raw = TInvalid.
Proof.
  intros Hc. rewrite <- count_clean_colon in Hc.
  assert (Hin : In COLON (clean raw)) by (apply (count_occ_In Z.eq_dec); lia).
  pose proof (colon_not_blank raw Hin) as Hnb.
  unfold parse_time. destruct (trim raw) as [|c t]; [contradiction|].
  destruct (split_once COLON (clean raw)) as [[hs ms]|] eqn:E.
  - pose proof (split_once_spec _ _ _ _ E) as Hs. pose proof (split_once_first _ _ _ _ E) as Hf.
    rewrite Hs, count_occ_app, (proj1 (count_occ_not_In Z.eq_dec hs COLON) Hf) in Hc.
    rewrite count_occ_cons_eq in Hc by reflexivity.
    assert (Hm : In COLON ms) by (apply (count_occ_In Z.eq_dec); lia).
    unfold parse_i8. rewrite (parse_int_colon _ _ ms Hm).
    destruct (parse_int (-128) 127 hs); reflexivity.
  - exfalso. apply (count_occ_In Z.eq_dec) in Hin.
    clear - E Hin. induction (clean raw) as [|d t IH]; [simpl in Hin; lia|].
    simpl in E, Hin. destruct (Z.eqb_spec d COLON) as [->|Hne]; [discriminate|].
    destruct (split_once COLON t) as [[a b]|]; [discriminate|].
    destruct (Z.eq_dec d COLON); [contradiction | exact (IH Hin eq_refl)].
Qed.

Lemma parse_time_two_colons_witness :
  (2 <= count_occ Z.eq_dec (s "12:30:00") COLON)%nat
  /\ parse_time (s "12:30:00") = TInvalid.
Proof.
  assert (H : (2 <= count_occ Z.eq_dec (s "12:30:00") COLON)%nat) by (vm_compute; lia).
  split; [exact H | exact (parse_time_two_colons _ H)].
Defined.
